(** * Storage decoding for contract instances: slot paths, mapping-key
      registry and storage-word cache

    Shallow embedding of [TruffleContractInstanceDecoder]
    (packages/truffle-decoder/lib/contract.ts): [constructSlot],
    [watchMappingKey], [unwatchMappingKey] and [getStorage], with the
    properties of the design document proved or refuted on it. *)

From Stdlib Require Import ZArith Lia.
From stdpp Require Import base option list strings gmap pretty.

Local Open Scope string_scope.
Local Open Scope list_scope.
Local Open Scope Z_scope.

(** ** JavaScript values that may be missing, calls that may throw *)

Module Js.

(** What a call can raise: the [TypeError] of a property read on
    [undefined], or whatever a collaborator throws. *)
Inductive exn : Type :=
| TypeError
| Thrown (what : string).

Inductive result (A : Type) : Type :=
| Ret (a : A)
| Throw (e : exn).
Global Arguments Ret {A} a.
Global Arguments Throw {A} e.

Global Instance result_ret : MRet result := fun A a => Ret a.
Global Instance result_bind : MBind result := fun A B f r =>
  match r with
  | Ret a => f a
  | Throw e => Throw e
  end.

Global Instance result_fmap : FMap result := fun A B f r =>
  match r with
  | Ret a => Ret (f a)
  | Throw e => Throw e
  end.

(** [o.f] where [o] may be [undefined]. *)
Definition prop {A B : Type} (o : option A) (f : A → B) : result B :=
  match o with
  | Some a => Ret (f a)
  | None => Throw TypeError
  end.

(** [a || b.f] on object-or-undefined operands: [b.f] is only
    evaluated when [a] is missing. *)
Definition orElseProp {A B : Type}
    (a : option A) (b : option B) (f : B → option A) : result (option A) :=
  match a with
  | Some x => Ret (Some x)
  | None => prop b f
  end.

End Js.
Import Js.

(** ** Data model *)

(** AST nodes, with the fields [constructSlot] reads itself; the
    type identifier is what the codec's classification reads. *)
#[local] Unset Elimination Schemes.
Inductive AstDefinition : Type := mkAstDefinition {
  def_id : Z;
  def_name : string;
  typeIdentifier : string;
  typeName : option AstDefinition;
  baseType : option AstDefinition;
  keyType : option AstDefinition;
  valueType : option AstDefinition
}.
#[local] Set Elimination Schemes.

(** Arguments as a caller passes them ([any] in the source): a big
    number, a number, a string or a boolean. *)
Inductive RawIndex : Type :=
| RawBN (n : Z)
| RawNumber (n : Z)
| RawString (s : string)
| RawBoolean (b : bool).

(** [variable: number | string]. *)
Inductive VariableRef : Type :=
| VarNumber (n : Z)
| VarString (s : string).

Module Values.

Inductive ElementaryData : Type :=
| IntegerData (n : Z)
| HexData (hex : string)
| BoolData (b : bool)
| StringData (s : string).

(** Modelled from the spec: [Values.ElementaryValue] is declared in
    truffle-codec-utils; an elementary value tagged with its type. *)
Record ElementaryValue : Type := mkElementaryValue {
  evType : string;
  evValue : ElementaryData
}.

Global Instance ElementaryData_eq_dec : EqDecision ElementaryData.
Proof. solve_decision. Defined.
Global Instance ElementaryValue_eq_dec : EqDecision ElementaryValue.
Proof. solve_decision. Defined.

End Values.
Import Values.

Module Codec.

(** [Codec.Slot]: [{ key?, path?, hashPath?, offset }]. *)
#[local] Unset Elimination Schemes.
Inductive Slot : Type := mkSlot {
  key : option ElementaryValue;
  path : option Slot;
  hashPath : option bool;
  offset : Z
}.
#[local] Set Elimination Schemes.

(** [StorageLength]: [{bytes}] or [{words}]. *)
Inductive StorageLength : Type :=
| Bytes (bytes : Z)
| Words (words : Z).

Definition isWordsLength (size : StorageLength) : bool :=
  match size with
  | Words _ => true
  | Bytes _ => false
  end.

Record StoragePosition : Type := mkStoragePosition {
  slot : Slot;
  index : Z
}.

Record Range : Type := mkRange {
  from : StoragePosition;
  to : StoragePosition
}.

(** [StoragePointer | ConstantDefinitionPointer]. *)
Inductive Pointer : Type :=
| StoragePointer (range : Range)
| ConstantDefinitionPointer (definition : AstDefinition).

Definition location (pointer : Pointer) : string :=
  match pointer with
  | StoragePointer _ => "storage"
  | ConstantDefinitionPointer _ => "definition"
  end.

(** [pointer.range], missing on a constant. *)
Definition range (pointer : Pointer) : option Range :=
  match pointer with
  | StoragePointer r => Some r
  | ConstantDefinitionPointer _ => None
  end.

Record StorageMemberAllocation : Type := mkStorageMemberAllocation {
  definition : AstDefinition;
  pointer : Pointer
}.

Record StorageAllocation : Type := mkStorageAllocation {
  members : list StorageMemberAllocation
}.

(** Modelled from the spec: [Codec.equalSlots] is in truffle-codec.
    Two slots are equal iff every level of their chains is equal in
    (offset, hashPath, key) and the parents are recursively equal. *)
Fixpoint equalSlots (slot1 slot2 : Slot) : bool :=
  match slot1, slot2 with
  | mkSlot key1 path1 hashPath1 offset1, mkSlot key2 path2 hashPath2 offset2 =>
      bool_decide (offset1 = offset2)
      && bool_decide (hashPath1 = hashPath2)
      && bool_decide (key1 = key2)
      && match path1, path2 with
         | Some parent1, Some parent2 => equalSlots parent1 parent2
         | None, None => true
         | _, _ => false
         end
  end.

End Codec.
Import Codec.

(** The chain of [slot.path] links, leaf first. *)
Fixpoint chain (s : Slot) : list Slot :=
  match s with
  | mkSlot _ (Some parent) _ _ => s :: chain parent
  | mkSlot _ None _ _ => [s]
  end.

(** Strict ancestors: the chain above the slot. *)
Definition ancestors (s : Slot) : list Slot :=
  match path s with
  | Some parent => chain parent
  | None => []
  end.

Definition hasKey (s : Slot) : bool :=
  match key s with
  | Some _ => true
  | None => false
  end.

(** ** Collaborators

    Functions of truffle-codec-utils, truffle-codec and bn.js that
    [constructSlot] calls and whose code lives in other packages.  Each
    may throw; each receives a definition that may be [undefined]. *)
Class Collaborators : Type := {
  (** ECMAScript ToNumber on a string, as [==] applies it: [None] when
      the result is [NaN] or not an integer. *)
  toNumber : string → option Z;
  (** [DefinitionUtils.typeClass] *)
  typeClass : option AstDefinition → result string;
  (** [DefinitionUtils.isDynamicArray] *)
  isDynamicArray : option AstDefinition → result bool;
  (** [DefinitionUtils.typeId] *)
  typeId : option AstDefinition → result Z;
  (** [Codec.storageSize] *)
  storageSize :
    option AstDefinition → gmap Z AstDefinition → gmap Z StorageAllocation →
    result StorageLength;
  (** [wrapElementaryViaDefinition] *)
  wrapElementaryViaDefinition :
    RawIndex → option AstDefinition → result ElementaryValue;
  (** [new BN(x)] for an [x] that is not a [BN] *)
  newBN : RawIndex → result Z
}.

(** The chain-access collaborator, with the log of the storage reads it
    served (address, slot, block). *)
Record Web3 : Type := mkWeb3 {
  storageAt : string → Z → Z → list Byte.byte;
  reads : list (string * Z * Z)
}.

Definition getStorageAt (web3 : Web3) (address : string) (slot block : Z)
    : list Byte.byte * Web3 :=
  (storageAt web3 address slot block,
   mkWeb3 (storageAt web3) (reads web3 ++ [(address, slot, block)])).

Module EVM.
(** Modelled from the spec: [CodecUtils.EVM.WORD_SIZE] is in
    truffle-codec-utils; the word is the fixed 32-byte unit of
    storage. *)
Definition WORD_SIZE : nat := 32.
End EVM.

Module Conversion.

(** [CodecUtils.Conversion.toBytes(data, length)] lives in
    truffle-codec-utils: a collaborator, of which nothing is assumed. *)
Class Collaborator : Type := {
  toBytes : list Byte.byte → nat → list Byte.byte
}.

End Conversion.

(** ** The instance decoder's state *)

Record TruffleContractInstanceDecoder : Type := mkDecoder {
  web3 : Web3;
  referenceDeclarations : gmap Z AstDefinition;
  allocations_storage : gmap Z StorageAllocation;
  stateVariableReferences : list StorageMemberAllocation;
  mappingKeys : list Slot;
  (* block, then address, then [slot.toString()] *)
  storageCache : gmap Z (gmap string (gmap string (list Byte.byte)))
}.

Definition set_mappingKeys (this : TruffleContractInstanceDecoder)
    (keys : list Slot) : TruffleContractInstanceDecoder :=
  mkDecoder (web3 this) (referenceDeclarations this) (allocations_storage this)
    (stateVariableReferences this) keys (storageCache this).

Definition set_storageCache (this : TruffleContractInstanceDecoder)
    (cache : gmap Z (gmap string (gmap string (list Byte.byte))))
    : TruffleContractInstanceDecoder :=
  mkDecoder (web3 this) (referenceDeclarations this) (allocations_storage this)
    (stateVariableReferences this) (mappingKeys this) cache.

Definition set_web3 (this : TruffleContractInstanceDecoder) (w : Web3)
    : TruffleContractInstanceDecoder :=
  mkDecoder w (referenceDeclarations this) (allocations_storage this)
    (stateVariableReferences this) (mappingKeys this) (storageCache this).

(** ** Slot construction *)

Section ConstructSlot.

Context {codec : Collaborators}.

(** [definition.name === variable || definition.id == variable] *)
Definition matchesVariable (variable : VariableRef) (d : AstDefinition) : bool :=
  match variable with
  | VarString s =>
      bool_decide (def_name d = s)
      || match toNumber s with
         | Some n => bool_decide (def_id d = n)
         | None => false
         end
  | VarNumber n => bool_decide (def_id d = n)
  end.

(** [definition.name === rawIndex] *)
Definition matchesMemberName (rawIndex : RawIndex) (d : AstDefinition) : bool :=
  match rawIndex with
  | RawString s => bool_decide (def_name d = s)
  | _ => false
  end.

Definition findAllocation (this : TruffleContractInstanceDecoder)
    (variable : VariableRef) : option StorageMemberAllocation :=
  List.find (λ a, matchesVariable variable (definition a))
    (stateVariableReferences this).

(** The base case, [indices.length === 0]. *)
Definition constructSlotBase (this : TruffleContractInstanceDecoder)
    (variable : VariableRef) : result (option Slot * option AstDefinition) :=
  let allocation := findAllocation this variable in
  definition ← prop allocation definition;
  pointer ← prop allocation pointer;
  if negb (bool_decide (location pointer = "storage"))
  then Ret (None, None)
  else
    range ← prop (range pointer) (λ r, r);
    Ret (Some (slot (from range)), Some definition).

(** [rawIndex instanceof BN ? rawIndex.clone() : new BN(rawIndex)] *)
Definition toIndex (rawIndex : RawIndex) : result Z :=
  match rawIndex with
  | RawBN n => Ret n
  | _ => newBN rawIndex
  end.

(** [parentDefinition.f || parentDefinition.typeName.f] for a field
    [f] among [baseType], [keyType] and [valueType]. *)
Definition viaTypeName (parentDefinition : option AstDefinition)
    (f : AstDefinition → option AstDefinition)
    : result (option AstDefinition) :=
  own ← prop parentDefinition f;
  orElseProp own (parentDefinition ≫= typeName) f.

(** The main case, after the recursive call returned
    [[parentSlot, parentDefinition]] with a defined [parentSlot]. *)
Definition constructSlotIndex (this : TruffleContractInstanceDecoder)
    (parentSlot : Slot) (parentDefinition : option AstDefinition)
    (rawIndex : RawIndex) : result (option Slot * option AstDefinition) :=
  class ← typeClass parentDefinition;
  if bool_decide (class = "array") then
    index ← toIndex rawIndex;
    definition ← viaTypeName parentDefinition baseType;
    size ← storageSize definition (referenceDeclarations this)
              (allocations_storage this);
    match size with
    | Bytes _ => Ret (None, None) (* [!Codec.isWordsLength(size)] *)
    | Words words =>
        dynamic ← isDynamicArray parentDefinition;
        Ret (Some (mkSlot None (Some parentSlot) (Some dynamic)
                     (index * words)),
             definition)
    end
  else if bool_decide (class = "mapping") then
    keyDefinition ← viaTypeName parentDefinition keyType;
    key ← wrapElementaryViaDefinition rawIndex keyDefinition;
    definition ← viaTypeName parentDefinition valueType;
    Ret (Some (mkSlot (Some key) (Some parentSlot) None 0), definition)
  else if bool_decide (class = "struct") then
    parentId ← typeId parentDefinition;
    structAllocation ← prop (allocations_storage this !! parentId) members;
    let allocation :=
      match rawIndex with
      | RawNumber index => (* [typeof rawIndex === "number"]: [members[index]] *)
          if bool_decide (0 ≤ index)
          then structAllocation !! Z.to_nat index
          else None
      | _ =>
          List.find (λ a, matchesMemberName rawIndex (definition a))
            structAllocation
      end in
    definition ← prop allocation definition;
    pointer ← prop allocation pointer;
    range ← prop (range pointer) (λ r, r);
    Ret (Some (mkSlot None (Some parentSlot) None
                 (offset (slot (from range)))),
         Some definition)
  else Ret (None, None).

(** [constructSlot] on the indices in reverse order: the head is the
    last index, the tail is [indices.slice(0, -1)]. *)
Fixpoint constructSlotRev (this : TruffleContractInstanceDecoder)
    (variable : VariableRef) (reversed : list RawIndex)
    : result (option Slot * option AstDefinition) :=
  match reversed with
  | [] => constructSlotBase this variable
  | rawIndex :: parentIndices =>
      '(parentSlot, parentDefinition) ←
        constructSlotRev this variable parentIndices;
      match parentSlot with
      | None => Ret (None, None)
      | Some parentSlot =>
          constructSlotIndex this parentSlot parentDefinition rawIndex
      end
  end.

Definition constructSlot (this : TruffleContractInstanceDecoder)
    (variable : VariableRef) (indices : list RawIndex)
    : result (option Slot * option AstDefinition) :=
  constructSlotRev this variable (rev indices).

End ConstructSlot.

(** ** Mapping-key registry *)

(** The body of the [while] loop of [watchMappingKey], from a defined
    [slot]: the loop ends at a slot that some registered key equals, or
    at the root. *)
Fixpoint watchLoop (mappingKeys : list Slot) (slot : Slot) : list Slot :=
  if forallb (λ existingSlot, negb (equalSlots existingSlot slot)) mappingKeys
  then
    let mappingKeys :=
      match slot with
      | mkSlot (Some _) _ _ _ => mappingKeys ++ [slot]
      | mkSlot None _ _ _ => mappingKeys
      end in
    match slot with
    | mkSlot _ (Some parent) _ _ => watchLoop mappingKeys parent
    | mkSlot _ None _ _ => mappingKeys
    end
  else mappingKeys.

(** The callback of the [filter] in [unwatchMappingKey]: [false] when
    the walk from [existingSlot] to the root meets a slot equal to
    [slot], [true] when it reaches the root without. *)
Fixpoint unwatchKeeps (slot existingSlot : Slot) : bool :=
  if equalSlots existingSlot slot then false
  else
    match existingSlot with
    | mkSlot _ (Some parent) _ _ => unwatchKeeps slot parent
    | mkSlot _ None _ _ => true
    end.

Section Registry.

Context {codec : Collaborators}.

Definition watchMappingKey (this : TruffleContractInstanceDecoder)
    (variable : VariableRef) (indices : list RawIndex)
    : result TruffleContractInstanceDecoder :=
  '(slot, _) ← constructSlot this variable indices;
  match slot with
  | Some slot => Ret (set_mappingKeys this (watchLoop (mappingKeys this) slot))
  | None => Ret this
  end.

Definition unwatchMappingKey (this : TruffleContractInstanceDecoder)
    (variable : VariableRef) (indices : list RawIndex)
    : result TruffleContractInstanceDecoder :=
  '(slot, _) ← constructSlot this variable indices;
  match slot with
  | None => Ret this
  | Some slot =>
      Ret (set_mappingKeys this
             (List.filter (unwatchKeeps slot) (mappingKeys this)))
  end.

End Registry.

(** ** Storage-word cache *)

Abbreviation StorageCache := (gmap Z (gmap string (gmap string (list Byte.byte)))).

(** [cache[block][address][key]], [None] when any level is missing. *)
Definition lookup3 (cache : StorageCache) (block : Z) (address key : string)
    : option (list Byte.byte) :=
  byAddress ← cache !! block;
  bySlot ← byAddress !! address;
  bySlot !! key.

(** The entry of the cache for a triple; the key is [slot.toString()]. *)
Definition cachedWord (this : TruffleContractInstanceDecoder)
    (address : string) (slot block : Z) : option (list Byte.byte) :=
  lookup3 (storageCache this) block address (pretty slot).

(** [if(cache[block] === undefined) cache[block] = {}] *)
Definition ensureBlock (cache : StorageCache) (block : Z) : StorageCache :=
  match cache !! block with
  | None => <[block := ∅]> cache
  | Some _ => cache
  end.

(** [if(cache[block][address] === undefined) cache[block][address] = {}] *)
Definition ensureAddress (cache : StorageCache) (block : Z) (address : string)
    : StorageCache :=
  match (cache !!! block) !! address with
  | None => <[block := <[address := ∅]> (cache !!! block)]> cache
  | Some _ => cache
  end.

(** [cache[block][address][key] = word] *)
Definition store (cache : StorageCache) (block : Z) (address key : string)
    (word : list Byte.byte) : StorageCache :=
  <[block := <[address := <[key := word]> ((cache !!! block) !!! address)]>
               (cache !!! block)]> cache.

Definition getStorage {conversion : Conversion.Collaborator}
    (this : TruffleContractInstanceDecoder)
    (address : string) (slot block : Z)
    : list Byte.byte * TruffleContractInstanceDecoder :=
  (* first, set up any preliminary layers as needed *)
  let cache := ensureBlock (storageCache this) block in
  let cache := ensureAddress cache block address in
  (* now, if we have it cached, just return it *)
  match ((cache !!! block) !!! address) !! pretty slot with
  | Some word => (word, set_storageCache this cache)
  | None =>
      (* otherwise, get it, cache it, and return it *)
      let '(reply, web3) := getStorageAt (web3 this) address slot block in
      let word := Conversion.toBytes reply EVM.WORD_SIZE in
      (word,
       set_web3
         (set_storageCache this (store cache block address (pretty slot) word))
         web3)
  end.

(** ** Runs of an instance decoder *)

Inductive Call : Type :=
| Watch (variable : VariableRef) (indices : list RawIndex)
| Unwatch (variable : VariableRef) (indices : list RawIndex)
| GetStorage (address : string) (slot block : Z).

Section Runs.

Context {codec : Collaborators} {conversion : Conversion.Collaborator}.

(** One call on the instance; a call that throws leaves the instance
    as it was. *)
Definition call (this : TruffleContractInstanceDecoder) (c : Call)
    : TruffleContractInstanceDecoder :=
  match c with
  | Watch variable indices =>
      match watchMappingKey this variable indices with
      | Ret this' => this'
      | Throw _ => this
      end
  | Unwatch variable indices =>
      match unwatchMappingKey this variable indices with
      | Ret this' => this'
      | Throw _ => this
      end
  | GetStorage address slot block => (getStorage this address slot block).2
  end.

Definition run (this : TruffleContractInstanceDecoder) (calls : list Call)
    : TruffleContractInstanceDecoder :=
  foldl call this calls.

End Runs.

(** A freshly constructed instance: [mappingKeys = []],
    [storageCache = {}], no read served yet. *)
Definition newDecoder (chain : string → Z → Z → list Byte.byte)
    (declarations : gmap Z AstDefinition)
    (storage : gmap Z StorageAllocation)
    (variables : list StorageMemberAllocation)
    : TruffleContractInstanceDecoder :=
  mkDecoder (mkWeb3 chain []) declarations storage variables [] ∅.

(** ** A sample contract

    [contract C { uint256 constant k = 7;
                  mapping(string => mapping(uint256 => uint256)) a;
                  uint256[] xs;  uint8[] small; }]
    with stand-ins for the collaborators that classify its nodes by
    their type identifiers, as the codec does. *)
Module Sample.

Fixpoint digits (acc : Z) (s : string) : option Z :=
  match s with
  | EmptyString => Some acc
  | String c rest =>
      let n := Z.of_N (Ascii.N_of_ascii c) in
      if bool_decide (48 ≤ n ≤ 57) then digits (10 * acc + (n - 48)) rest
      else None
  end.

Definition decimal (s : string) : option Z :=
  match s with
  | EmptyString => None
  | _ => digits 0 s
  end.

Definition classOf (identifier : string) : string :=
  if String.prefix "t_array" identifier then "array"
  else if String.prefix "t_mapping" identifier then "mapping"
  else if String.prefix "t_struct" identifier then "struct"
  else if String.prefix "t_string" identifier then "string"
  else "uint".

Definition wrap (rawIndex : RawIndex) (tag : string) : ElementaryValue :=
  mkElementaryValue tag
    match rawIndex with
    | RawBN n | RawNumber n => IntegerData n
    | RawString s =>
        if bool_decide (classOf tag = "string") then StringData s
        else match decimal s with
             | Some n => IntegerData n
             | None => HexData s
             end
    | RawBoolean b => BoolData b
    end.

Definition collaborators : Collaborators := {|
  toNumber := decimal;
  typeClass d := prop d (λ d, classOf (typeIdentifier d));
  isDynamicArray d :=
    prop d (λ d, bool_decide (is_Some (String.index 0 "dyn_" (typeIdentifier d))));
  typeId d := prop d def_id;
  storageSize d _ _ :=
    prop d (λ d, if bool_decide (typeIdentifier d = "t_uint8")
                 then Bytes 1 else Words 1);
  wrapElementaryViaDefinition rawIndex d :=
    prop d (λ d, wrap rawIndex (typeIdentifier d));
  newBN rawIndex :=
    match rawIndex with
    | RawBN n | RawNumber n => Ret n
    | RawString s =>
        match decimal s with
        | Some n => Ret n
        | None => Throw (Thrown "Invalid character")
        end
    | RawBoolean _ => Throw (Thrown "Assertion failed")
    end
|}.

(** A stand-in for [toBytes]: zero bytes on the left, up to the
    size. *)
Definition conversion : Conversion.Collaborator := {|
  Conversion.toBytes data size :=
    replicate (size - length data) Byte.x00 ++ data
|}.

Definition elementary (identifier : string) : AstDefinition :=
  mkAstDefinition 0 "" identifier None None None None.

Definition uint256 : AstDefinition := elementary "t_uint256".
Definition uint8 : AstDefinition := elementary "t_uint8".
Definition stringType : AstDefinition := elementary "t_string_storage_ptr".

Definition innerMapping : AstDefinition :=
  mkAstDefinition 11 "" "t_mapping$_t_uint256_$_t_uint256_$"
    None None (Some uint256) (Some uint256).

Definition outerMapping : AstDefinition :=
  mkAstDefinition 12 ""
    "t_mapping$_t_string_memory_$_t_mapping$_t_uint256_$_t_uint256_$_$"
    None None (Some stringType) (Some innerMapping).

Definition variable (id : Z) (name identifier : string)
    (type : option AstDefinition) : AstDefinition :=
  mkAstDefinition id name identifier type None None None.

Definition k : AstDefinition := variable 1 "k" "t_uint256" (Some uint256).
Definition a : AstDefinition :=
  variable 2 "a"
    "t_mapping$_t_string_memory_$_t_mapping$_t_uint256_$_t_uint256_$_$"
    (Some outerMapping).
Definition xs : AstDefinition :=
  variable 3 "xs" "t_array$_t_uint256_$dyn_storage"
    (Some (mkAstDefinition 13 "" "t_array$_t_uint256_$dyn_storage_ptr"
             None (Some uint256) None None)).
Definition small : AstDefinition :=
  variable 4 "small" "t_array$_t_uint8_$dyn_storage"
    (Some (mkAstDefinition 14 "" "t_array$_t_uint8_$dyn_storage_ptr"
             None (Some uint8) None None)).

Definition rootSlot (n : Z) : Slot := mkSlot None None None n.

Definition wordAt (n : Z) : Pointer :=
  StoragePointer (mkRange (mkStoragePosition (rootSlot n) 0)
                          (mkStoragePosition (rootSlot n) 31)).

Definition variables : list StorageMemberAllocation :=
  [ mkStorageMemberAllocation k (ConstantDefinitionPointer k);
    mkStorageMemberAllocation a (wordAt 0);
    mkStorageMemberAllocation xs (wordAt 1);
    mkStorageMemberAllocation small (wordAt 2) ].

(** A chain whose every word is the single byte [0x01]. *)
Definition chain (address : string) (slot block : Z) : list Byte.byte :=
  [Byte.x01].

Definition decoder : TruffleContractInstanceDecoder :=
  newDecoder chain ∅ {[ 20 := mkStorageAllocation variables ]} variables.

(** The slots of [a["b"]] and [a["b"][5]]. *)
Definition a_b : Slot :=
  mkSlot (Some (mkElementaryValue "t_string_storage_ptr" (StringData "b")))
    (Some (rootSlot 0)) None 0.
Definition a_b_5 : Slot :=
  mkSlot (Some (mkElementaryValue "t_uint256" (IntegerData 5)))
    (Some a_b) None 0.

End Sample.

(** ** Specification vocabulary for the registry *)

(** Some registered key equals [slot]. *)
Definition registered (mappingKeys : list Slot) (slot : Slot) : bool :=
  existsb (λ existingSlot, equalSlots existingSlot slot) mappingKeys.

(** The part of a leaf-to-root walk that comes before the first slot
    that is already registered. *)
Fixpoint visited (mappingKeys : list Slot) (walk : list Slot) : list Slot :=
  match walk with
  | [] => []
  | slot :: rest =>
      if registered mappingKeys slot then []
      else slot :: visited mappingKeys rest
  end.

(** The walk from [existingSlot] to the root meets a slot equal to
    [target]. *)
Definition onWalk (target existingSlot : Slot) : bool :=
  existsb (λ s, equalSlots s target) (chain existingSlot).

(** Every keyed slot above a registered key is registered too. *)
Definition ancestorClosed (mappingKeys : list Slot) : Prop :=
  ∀ existingSlot p,
    existingSlot ∈ mappingKeys → p ∈ chain existingSlot → hasKey p = true →
    p ∈ mappingKeys.

(** The registry invariant of an instance: closed under keyed
    ancestors, and made of keyed slots. *)
Definition registryInvariant (this : TruffleContractInstanceDecoder) : Prop :=
  ancestorClosed (mappingKeys this)
  ∧ Forall (λ s, hasKey s = true) (mappingKeys this).

(** What holds of the cache and of the log of chain reads on every
    instance: no triple was read twice, and what was read is cached. *)
Definition cacheInvariant (this : TruffleContractInstanceDecoder) : Prop :=
  NoDup (reads (web3 this))
  ∧ (∀ address slot block,
       (address, slot, block) ∈ reads (web3 this) →
       is_Some (cachedWord this address slot block)).

(** ** Further vocabulary *)

(** The member a struct index selects: [members[index]] for a number,
    the first member of that name otherwise (the expression bound to
    [allocation] in the struct case of [constructSlot]). *)
Definition structMember (members : list StorageMemberAllocation)
    (rawIndex : RawIndex) : option StorageMemberAllocation :=
  match rawIndex with
  | RawNumber index =>
      if bool_decide (0 ≤ index)
      then members !! Z.to_nat index
      else None
  | _ => List.find (λ a, matchesMemberName rawIndex (definition a)) members
  end.

(** The second instance has the allocation tables of the first. *)
Definition sameTables (this this' : TruffleContractInstanceDecoder) : Prop :=
  stateVariableReferences this' = stateVariableReferences this
  ∧ referenceDeclarations this' = referenceDeclarations this
  ∧ allocations_storage this' = allocations_storage this.

(** Every entry of the first cache is an entry of the second. *)
Definition cacheExtends (this this' : TruffleContractInstanceDecoder) : Prop :=
  ∀ address slot block word,
    cachedWord this address slot block = Some word →
    cachedWord this' address slot block = Some word.

(** Every cached word is what [toBytes] makes of the word of the
    chain. *)
Definition coherent {conversion : Conversion.Collaborator}
    (this : TruffleContractInstanceDecoder) : Prop :=
  ∀ address slot block word,
    cachedWord this address slot block = Some word →
    word = Conversion.toBytes (storageAt (web3 this) address slot block)
             EVM.WORD_SIZE.

(** What the cache holds was read from the chain. *)
Definition readsCover (this : TruffleContractInstanceDecoder) : Prop :=
  ∀ address slot block,
    is_Some (cachedWord this address slot block) →
    (address, slot, block) ∈ reads (web3 this).

(** The second instance has the registry and the allocation tables of
    the first, the same chain behind it, and every entry of its cache. *)
Definition cacheGrown (this this' : TruffleContractInstanceDecoder) : Prop :=
  cacheExtends this this'
  ∧ mappingKeys this' = mappingKeys this
  ∧ sameTables this this'
  ∧ storageAt (web3 this') = storageAt (web3 this).

(** The storage reads of the second instance ([getStorageAt], as the
    chain collaborator logs them) are those of the first, followed by
    reads of slots of [address] at [block] only. *)
Definition readsOnly (address : string) (block : Z)
    (this this' : TruffleContractInstanceDecoder) : Prop :=
  ∃ new,
    reads (web3 this') = reads (web3 this) ++ new
    ∧ Forall (λ r, ∃ slot, r = (address, slot, block)) new.

(** ** Decoding variables

    [decodeVariable], [state] and [variable] of the instance decoder.
    The decoder of the codec is a generator: it yields requests for
    storage words or code and is resumed with the bytes, until it
    returns the value. *)

Inductive DecoderRequest : Type :=
| StorageRequest (slot : Z)
| CodeRequest (address : string).

(** A generator that finishes: [Return] is [{done: true, value}],
    [Yield] is [{done: false, value: request}] with what [next(response)]
    continues as. *)
Inductive Generator (Result : Type) : Type :=
| Return (value : Result)
| Yield (request : DecoderRequest) (next : list Byte.byte → Generator Result).
Arguments Return {Result} value.
Arguments Yield {Result} request next.

(** [block: BlockType]: a number, or a tag or hash as a string. *)
Inductive BlockType : Type :=
| BlockNumber (n : Z)
| BlockTag (tag : string).

(** The types of the codec that the instance only passes along. *)
Class DecodingTypes : Type := {
  Result : Type;
  TypesById : Type;
  DecoderContextsById : Type;
  DecoderContext : Type
}.

(** [Codec.EvmInfo], as [decodeVariable] fills it ([state.storage] is
    always the empty object there). *)
Record EvmInfo `{DecodingTypes} : Type := mkEvmInfo {
  info_mappingKeys : list Slot;
  info_userDefinedTypes : TypesById;
  info_allocations : gmap Z StorageAllocation;
  info_contexts : DecoderContextsById;
  info_currentContext : DecoderContext
}.
Arguments mkEvmInfo {_} _ _ _ _ _.

(** The fields of the instance that the calls below read and never
    write. *)
Record ContractFields `{DecodingTypes} : Type := mkContractFields {
  contractName : string;
  contractAddress : string;
  contractCode : string;
  userDefinedTypes : TypesById;
  contextsById : DecoderContextsById;
  context : DecoderContext
}.
Arguments mkContractFields {_} _ _ _ _ _ _.

(** [DecoderTypes.ContractState] *)
Record ContractState `{DecodingTypes} : Type := mkContractState {
  state_name : string;
  state_code : string;
  balanceAsBN : Z;
  nonceAsBN : Z;
  variables : gmap string Result
}.
Arguments mkContractState {_} _ _ _ _ _.

(** What decoding calls in other packages and on the chain.  What the
    chain holds at a numbered block does not change, so the reads at a
    block number are functions of their arguments; a block tag is
    resolved to its number once per call. *)
Class DecodingCollaborators `{DecodingTypes} : Type := {
  (** [Codec.decodeVariable(definition, pointer, info)] *)
  codecDecodeVariable : AstDefinition → Pointer → EvmInfo → Generator Result;
  (** [wireDecoder.getCode(address, block)] *)
  wireGetCode : string → Z → list Byte.byte;
  (** [(await web3.eth.getBlock(block)).number] *)
  getBlockNumber : string → result Z;
  (** [new BN(await web3.eth.getBalance(address, block))] *)
  getBalance : string → Z → result Z;
  (** [new BN(await web3.eth.getTransactionCount(address, block))] *)
  getTransactionCount : string → Z → result Z
}.

Module InstanceDecoder.

Section Decoding.

Context {codec : Collaborators} {conversion : Conversion.Collaborator}
  `{decoding : DecodingCollaborators}.

Definition getCode (address : string) (block : Z) : list Byte.byte :=
  wireGetCode address block.

(** The loop of [decodeVariable]: serve each request, resume, until the
    generator is done. *)
Fixpoint drive (this : TruffleContractInstanceDecoder)
    (contractAddress : string) (block : Z) (decoder : Generator Result)
    : Result * TruffleContractInstanceDecoder :=
  match decoder with
  | Return value => (value, this)
  | Yield (StorageRequest slot) next =>
      let '(response, this) := getStorage this contractAddress slot block in
      drive this contractAddress block (next response)
  | Yield (CodeRequest address) next =>
      drive this contractAddress block (next (getCode address block))
  end.

Definition decodeVariable (fields : ContractFields)
    (this : TruffleContractInstanceDecoder)
    (variable : StorageMemberAllocation) (block : Z)
    : Result * TruffleContractInstanceDecoder :=
  let info :=
    mkEvmInfo (mappingKeys this) (userDefinedTypes fields)
      (allocations_storage this) (contextsById fields) (context fields) in
  let decoder :=
    codecDecodeVariable (definition variable) (pointer variable) info in
  drive this (contractAddress fields) block decoder.

(** [typeof block === "number" ? block : (await getBlock(block)).number] *)
Definition blockNumberOf (block : BlockType) : result Z :=
  match block with
  | BlockNumber n => Ret n
  | BlockTag tag => getBlockNumber tag
  end.

(** The [for] loop of [state] over the variables still to decode. *)
Fixpoint decodeAll (fields : ContractFields)
    (this : TruffleContractInstanceDecoder)
    (references : list StorageMemberAllocation) (blockNumber : Z)
    (decoded : gmap string Result)
    : gmap string Result * TruffleContractInstanceDecoder :=
  match references with
  | [] => (decoded, this)
  | variable :: rest =>
      let '(decodedVariable, this) :=
        decodeVariable fields this variable blockNumber in
      decodeAll fields this rest blockNumber
        (<[def_name (definition variable) := decodedVariable]> decoded)
  end.

Definition state (fields : ContractFields)
    (this : TruffleContractInstanceDecoder) (block : BlockType)
    : result (ContractState * TruffleContractInstanceDecoder) :=
  blockNumber ← blockNumberOf block;
  balance ← getBalance (contractAddress fields) blockNumber;
  nonce ← getTransactionCount (contractAddress fields) blockNumber;
  let '(decoded, this) :=
    decodeAll fields this (stateVariableReferences this) blockNumber ∅ in
  Ret (mkContractState (contractName fields) (contractCode fields)
         balance nonce decoded,
       this).

Definition variable (fields : ContractFields)
    (this : TruffleContractInstanceDecoder)
    (nameOrId : VariableRef) (block : BlockType)
    : result (option Result * TruffleContractInstanceDecoder) :=
  blockNumber ← blockNumberOf block;
  match findAllocation this nameOrId with
  | None => Ret (None, this) (* if user put in a bad name *)
  | Some variable =>
      let '(decoded, this) := decodeVariable fields this variable blockNumber in
      Ret (Some decoded, this)
  end.

End Decoding.

End InstanceDecoder.

(** Decoding against the chain itself, with no cache in between. *)
Fixpoint decodeDirectly {conversion : Conversion.Collaborator}
    `{DecodingCollaborators}
    (storage : string → Z → Z → list Byte.byte)
    (contractAddress : string) (block : Z) (decoder : Generator Result)
    : Result :=
  match decoder with
  | Return value => value
  | Yield (StorageRequest slot) next =>
      decodeDirectly storage contractAddress block
        (next (Conversion.toBytes (storage contractAddress slot block)
                 EVM.WORD_SIZE))
  | Yield (CodeRequest address) next =>
      decodeDirectly storage contractAddress block
        (next (wireGetCode address block))
  end.

(** ** A sample with a struct

    [contract D { struct P { uint256 x; uint256 y; }  P p; }], the
    struct declared with id 30. *)
Module StructSample.

Definition collaborators : Collaborators := {|
  toNumber := Sample.decimal;
  typeClass := typeClass (Collaborators := Sample.collaborators);
  isDynamicArray := isDynamicArray (Collaborators := Sample.collaborators);
  typeId d := prop d (λ _, 30);
  storageSize := storageSize (Collaborators := Sample.collaborators);
  wrapElementaryViaDefinition :=
    wrapElementaryViaDefinition (Collaborators := Sample.collaborators);
  newBN := newBN (Collaborators := Sample.collaborators)
|}.

Definition x : AstDefinition :=
  Sample.variable 31 "x" "t_uint256" (Some Sample.uint256).
Definition y : AstDefinition :=
  Sample.variable 32 "y" "t_uint256" (Some Sample.uint256).
Definition p : AstDefinition :=
  Sample.variable 5 "p" "t_struct$_P_$30_storage"
    (Some (Sample.elementary "t_struct$_P_$30_storage_ptr")).

Definition members : list StorageMemberAllocation :=
  [ mkStorageMemberAllocation x (Sample.wordAt 0);
    mkStorageMemberAllocation y (Sample.wordAt 1) ].

Definition variables : list StorageMemberAllocation :=
  [ mkStorageMemberAllocation p
      (StoragePointer (mkRange (mkStoragePosition (Sample.rootSlot 3) 0)
                               (mkStoragePosition (Sample.rootSlot 4) 31))) ].

Definition decoder : TruffleContractInstanceDecoder :=
  newDecoder Sample.chain ∅ {[ 30 := mkStorageAllocation members ]} variables.

End StructSample.

(** ** A sample decoder of values

    Values are lists of numbers.  A constant decodes without a request,
    an array by its length word and then its elements (two at most), a
    mapping to nothing, anything else by its own word. *)
Module DecodingSample.

Definition types : DecodingTypes := {|
  Result := list Z;
  TypesById := unit;
  DecoderContextsById := unit;
  DecoderContext := unit
|}.

Definition number (word : list Byte.byte) : Z :=
  Z.of_N (Byte.to_N (List.last word Byte.x00)).

Fixpoint elements (base : Z) (count : nat) (found : list Z)
    : Generator (list Z) :=
  match count with
  | O => Return found
  | S count =>
      Yield (StorageRequest base)
        (λ word, elements (base + 1) count (found ++ [number word]))
  end.

Definition decode (definition : AstDefinition) (pointer : Pointer)
    : Generator (list Z) :=
  match pointer with
  | ConstantDefinitionPointer _ => Return [7]
  | StoragePointer range =>
      let slot := offset (slot (from range)) in
      let class := Sample.classOf (typeIdentifier definition) in
      if bool_decide (class = "array") then
        Yield (StorageRequest slot)
          (λ word, elements (1000 * (slot + 1))
                     (Z.to_nat (Z.min (number word) 2)) [])
      else if bool_decide (class = "mapping") then Return []
      else Yield (StorageRequest slot) (λ word, Return [number word])
  end.

Definition collaborators : DecodingCollaborators (H := types) :=
  Build_DecodingCollaborators types
    (λ definition pointer info, decode definition pointer)
    (λ address block, [])
    (λ tag, if bool_decide (tag = "latest") then Ret 7 else Throw TypeError)
    (λ address block, Ret 100)
    (λ address block, Ret 1).

Definition fields : ContractFields (H := types) :=
  mkContractFields (H := types) "C" "0xabc" "0x6080" tt tt tt.

(** The allocation of [xs]. *)
Definition xs : StorageMemberAllocation :=
  mkStorageMemberAllocation Sample.xs (Sample.wordAt 1).

End DecodingSample.

(** * Properties *)

Section SampleRuns.

#[local] Existing Instance Sample.collaborators.
#[local] Existing Instance Sample.conversion.

Example sample_constructSlot_a_b_5 :
constructSlot Sample.decoder (VarString "a") [RawString "b"; RawNumber 5]
= Ret (Some Sample.a_b_5, Some Sample.uint256).
Proof. vm_compute. reflexivity. Qed.

Example sample_constructSlot_xs_3 :
constructSlot Sample.decoder (VarString "3") [RawString "4"]
= Ret (Some (mkSlot None (Some (Sample.rootSlot 1)) (Some true) 4),
       Some Sample.uint256).
Proof. vm_compute. reflexivity. Qed.

Example sample_watch_a_b_5 :
mappingKeys <$> watchMappingKey Sample.decoder (VarString "a") [RawString "b"; RawNumber 5]
= Ret [Sample.a_b_5; Sample.a_b].
Proof. vm_compute. reflexivity. Qed.

End SampleRuns.

(** ** Structural facts about slots *)

Section SlotFacts.

(** Induction along [path]. *)
Lemma Slot_path_ind (P : Slot → Prop)
    (root : ∀ k h o, P (mkSlot k None h o))
    (link : ∀ k parent h o, P parent → P (mkSlot k (Some parent) h o))
    (s : Slot) : P s.
Proof.
  revert s. fix IH 1. intros [k [parent|] h o].
  - apply link, IH.
  - apply root.
Qed.

Lemma equalSlots_refl (s : Slot) : equalSlots s s = true.
Proof.
  induction s as [k h o | k parent h o IH] using Slot_path_ind; simpl;
    rewrite !bool_decide_eq_true_2 by reflexivity; simpl; auto.
Qed.

Lemma equalSlots_eq (s1 s2 : Slot) : equalSlots s1 s2 = true ↔ s1 = s2.
Proof.
  split; [| intros ->; apply equalSlots_refl].
  revert s2.
  induction s1 as [k h o | k parent h o IH] using Slot_path_ind;
    intros [k2 [parent2|] h2 o2]; simpl;
    rewrite ?andb_true_iff, ?bool_decide_eq_true;
    intros [[[-> ->] ->] Hp]; try discriminate Hp.
  - reflexivity.
  - by rewrite (IH _ Hp).
Qed.

Lemma equalSlots_neq (s1 s2 : Slot) : equalSlots s1 s2 = false ↔ s1 ≠ s2.
Proof.
  rewrite <- equalSlots_eq. destruct (equalSlots s1 s2); naive_solver.
Qed.

Lemma chain_head (s : Slot) : ∃ rest, chain s = s :: rest.
Proof. destruct s as [k [parent|] h o]; simpl; eauto. Qed.

Lemma chain_ancestors (s : Slot) : chain s = s :: ancestors s.
Proof. by destruct s as [k [parent|] h o]. Qed.

Lemma chain_self (s : Slot) : s ∈ chain s.
Proof. rewrite chain_ancestors. apply list_elem_of_here. Qed.

(** A slot's chain is longer than the chain of any of its strict
    ancestors, so no slot is its own ancestor. *)
Lemma ancestors_shorter (s p : Slot) :
  p ∈ ancestors s → (length (chain p) < length (chain s))%nat.
Proof.
  induction s as [k h o | k parent h o IH] using Slot_path_ind;
    unfold ancestors; simpl; [by intros ?%elem_of_nil |].
  rewrite (chain_ancestors parent) at 1. intros [->|Hp]%elem_of_cons.
  - apply Nat.lt_succ_diag_r.
  - specialize (IH Hp). apply Nat.lt_lt_succ_r, IH.
Qed.

Lemma ancestors_irrefl (s : Slot) : s ∉ ancestors s.
Proof. intros Hs%ancestors_shorter. lia. Qed.

Lemma chain_trans (s p q : Slot) : p ∈ chain s → q ∈ chain p → q ∈ chain s.
Proof.
  induction s as [k h o | k parent h o IH] using Slot_path_ind; simpl.
  - intros ->%list_elem_of_singleton. done.
  - intros [->|Hp]%elem_of_cons Hq; [done |].
    apply elem_of_cons. right. by apply IH.
Qed.

End SlotFacts.

(** ** Slot construction *)

Section ConstructSlotFacts.

Context {codec : Collaborators}.
Implicit Types (this : TruffleContractInstanceDecoder)
  (variable : VariableRef) (indices : list RawIndex).

(** The two equations of the source: no index, and one more index. *)
Lemma constructSlot_nil this variable :
  constructSlot this variable [] = constructSlotBase this variable.
Proof. reflexivity. Qed.

Lemma constructSlot_snoc this variable indices rawIndex :
  constructSlot this variable (indices ++ [rawIndex]) =
  '(parentSlot, parentDefinition) ← constructSlot this variable indices;
  match parentSlot with
  | None => Ret (None, None)
  | Some parentSlot =>
      constructSlotIndex this parentSlot parentDefinition rawIndex
  end.
Proof. unfold constructSlot. by rewrite rev_unit. Qed.

Lemma constructSlot_snoc_parent this variable indices rawIndex
    parentSlot parentDefinition :
  constructSlot this variable indices = Ret (Some parentSlot, parentDefinition) →
  constructSlot this variable (indices ++ [rawIndex]) =
  constructSlotIndex this parentSlot parentDefinition rawIndex.
Proof. intros Hp. rewrite constructSlot_snoc, Hp. reflexivity. Qed.

(** A failure of the base case is the result for every index list. *)
Lemma constructSlot_base_throw this variable indices e :
  constructSlotBase this variable = Throw e →
  constructSlot this variable indices = Throw e.
Proof.
  intros Hb. induction indices as [| rawIndex indices IH] using rev_ind.
  - exact Hb.
  - rewrite constructSlot_snoc, IH. reflexivity.
Qed.

Lemma constructSlot_base_none this variable indices :
  constructSlotBase this variable = Ret (None, None) →
  constructSlot this variable indices = Ret (None, None).
Proof.
  intros Hb. induction indices as [| rawIndex indices IH] using rev_ind.
  - exact Hb.
  - rewrite constructSlot_snoc, IH. reflexivity.
Qed.

(** C2 (refuted on the code): a variable that no allocation matches
    makes [constructSlot] raise a [TypeError], whatever the indices:
    [find] gives [undefined] and [allocation.definition] is read from
    it.  The "no slot" pair is not returned, and [watchMappingKey] and
    [unwatchMappingKey] raise with it. *)
Theorem constructSlot_unknown_variable_raises this variable indices :
  findAllocation this variable = None →
  constructSlot this variable indices = Throw TypeError
  ∧ watchMappingKey this variable indices = Throw TypeError
  ∧ unwatchMappingKey this variable indices = Throw TypeError.
Proof.
  intros Hfind.
  assert (constructSlot this variable indices = Throw TypeError) as Hthrow.
  { apply constructSlot_base_throw.
    unfold constructSlotBase. rewrite Hfind. reflexivity. }
  unfold watchMappingKey, unwatchMappingKey. rewrite Hthrow. done.
Qed.

(** C8: for a variable whose pointer is not in storage (a constant),
    [constructSlot] returns the "no slot" pair for every index list,
    and [watchMappingKey] and [unwatchMappingKey] return normally with
    the instance, so also its registry, unchanged. *)
Theorem constant_variable_is_silent_noop this variable indices allocation :
  findAllocation this variable = Some allocation →
  location (pointer allocation) ≠ "storage" →
  constructSlot this variable indices = Ret (None, None)
  ∧ watchMappingKey this variable indices = Ret this
  ∧ unwatchMappingKey this variable indices = Ret this.
Proof.
  intros Hfind Hconst.
  assert (constructSlot this variable indices = Ret (None, None)) as Hslot.
  { apply constructSlot_base_none. unfold constructSlotBase.
    rewrite Hfind. simpl. by rewrite bool_decide_eq_false_2. }
  unfold watchMappingKey, unwatchMappingKey. rewrite Hslot. done.
Qed.

(** C3: indexing an array whose slot resolved, with an index that
    coerces to the integer [index]: when the element size is [words]
    whole words the slot has offset [index * words], the parent as
    path and [hashPath] equal to whether the parent is a dynamic
    array; when the element size is not in words, the result is the
    "no slot" pair. *)
Theorem constructSlot_array this variable indices rawIndex
    parentSlot parentDefinition index definition size :
  constructSlot this variable indices = Ret (Some parentSlot, parentDefinition) →
  typeClass parentDefinition = Ret "array" →
  toIndex rawIndex = Ret index →
  viaTypeName parentDefinition baseType = Ret definition →
  storageSize definition (referenceDeclarations this)
    (allocations_storage this) = Ret size →
  (∀ words dynamic,
     size = Words words →
     isDynamicArray parentDefinition = Ret dynamic →
     constructSlot this variable (indices ++ [rawIndex]) =
     Ret (Some {| key := None; path := Some parentSlot;
                  hashPath := Some dynamic; offset := index * words |},
          definition))
  ∧ (isWordsLength size = false →
     constructSlot this variable (indices ++ [rawIndex]) = Ret (None, None)).
Proof.
  intros Hparent Hclass Hindex Hdef Hsize.
  rewrite (constructSlot_snoc_parent _ _ _ _ _ _ Hparent).
  unfold constructSlotIndex. rewrite Hclass. simpl.
  rewrite Hindex. simpl. rewrite Hdef. simpl. rewrite Hsize. simpl.
  split.
  - intros words dynamic -> Hdyn. rewrite Hdyn. reflexivity.
  - destruct size; [reflexivity | discriminate].
Qed.

(** C4: indexing a mapping whose slot resolved: the slot's key is the
    raw index wrapped by the mapping's key type, its path is the
    parent slot, its offset is zero (and it carries no [hashPath]). *)
Theorem constructSlot_mapping this variable indices rawIndex
    parentSlot parentDefinition keyDefinition wrapped definition :
  constructSlot this variable indices = Ret (Some parentSlot, parentDefinition) →
  typeClass parentDefinition = Ret "mapping" →
  viaTypeName parentDefinition keyType = Ret keyDefinition →
  wrapElementaryViaDefinition rawIndex keyDefinition = Ret wrapped →
  viaTypeName parentDefinition valueType = Ret definition →
  constructSlot this variable (indices ++ [rawIndex]) =
  Ret (Some {| key := Some wrapped; path := Some parentSlot;
               hashPath := None; offset := 0 |},
       definition).
Proof.
  intros Hparent Hclass Hkey Hwrap Hvalue.
  rewrite (constructSlot_snoc_parent _ _ _ _ _ _ Hparent).
  unfold constructSlotIndex. rewrite Hclass. simpl.
  rewrite Hkey. simpl. rewrite Hwrap. simpl. rewrite Hvalue. reflexivity.
Qed.

End ConstructSlotFacts.

Section ConstructSlotSamples.

#[local] Existing Instance Sample.collaborators.
#[local] Existing Instance Sample.conversion.

(** C2, at the sample contract: no variable is called [nope]. *)
Lemma constructSlot_unknown_variable_witness :
  findAllocation Sample.decoder (VarString "nope") = None
  ∧ constructSlot Sample.decoder (VarString "nope") [RawNumber 0]
    = Throw TypeError
  ∧ watchMappingKey Sample.decoder (VarString "nope") [RawNumber 0]
    = Throw TypeError
  ∧ unwatchMappingKey Sample.decoder (VarString "nope") [RawNumber 0]
    = Throw TypeError.
Proof.
  split; [reflexivity |].
  apply constructSlot_unknown_variable_raises. reflexivity.
Defined.

(** C8, at the sample contract's constant [k]. *)
Lemma constant_variable_witness :
constructSlot Sample.decoder (VarString "k") [RawNumber 0] = Ret (None, None)
∧ watchMappingKey Sample.decoder (VarString "k") [RawNumber 0]
  = Ret Sample.decoder
∧ unwatchMappingKey Sample.decoder (VarString "k") [RawNumber 0]
  = Ret Sample.decoder.
Proof.
apply (constant_variable_is_silent_noop Sample.decoder (VarString "k")
         [RawNumber 0]
         (mkStorageMemberAllocation Sample.k (ConstantDefinitionPointer Sample.k))).
- reflexivity.
- simpl. discriminate.
Defined.

(** C3, at the sample contract: [xs[4]] and [small[4]]. *)
Lemma constructSlot_array_witness :
constructSlot Sample.decoder (VarString "xs") ([] ++ [RawString "4"]) =
  Ret (Some (mkSlot None (Some (Sample.rootSlot 1)) (Some true) (4 * 1)),
       Some Sample.uint256)
∧ constructSlot Sample.decoder (VarString "small") ([] ++ [RawString "4"]) =
  Ret (None, None).
Proof.
split.
- apply (proj1 (constructSlot_array (codec := Sample.collaborators) Sample.decoder (VarString "xs") []
           (RawString "4") (Sample.rootSlot 1) (Some Sample.xs) 4
           (Some Sample.uint256) (Words 1)
           ltac:(vm_compute; reflexivity) ltac:(vm_compute; reflexivity)
           ltac:(vm_compute; reflexivity) ltac:(vm_compute; reflexivity)
           ltac:(vm_compute; reflexivity)));
    vm_compute; reflexivity.
- apply (proj2 (constructSlot_array (codec := Sample.collaborators) Sample.decoder (VarString "small") []
           (RawString "4") (Sample.rootSlot 2) (Some Sample.small) 4
           (Some Sample.uint8) (Bytes 1)
           ltac:(vm_compute; reflexivity) ltac:(vm_compute; reflexivity)
           ltac:(vm_compute; reflexivity) ltac:(vm_compute; reflexivity)
           ltac:(vm_compute; reflexivity)));
    vm_compute; reflexivity.
Defined.

(** C4, at the sample contract: [a["b"]]. *)
Lemma constructSlot_mapping_witness :
constructSlot Sample.decoder (VarString "a") ([] ++ [RawString "b"]) =
Ret (Some Sample.a_b, Some Sample.innerMapping).
Proof.
apply (constructSlot_mapping (codec := Sample.collaborators) Sample.decoder (VarString "a") []
         (RawString "b") (Sample.rootSlot 0) (Some Sample.a)
         (Some Sample.stringType)
         (mkElementaryValue "t_string_storage_ptr" (StringData "b"))
         (Some Sample.innerMapping));
  vm_compute; reflexivity.
Defined.

End ConstructSlotSamples.

(** ** The registry walks *)

Section WalkFacts.

Implicit Types (mappingKeys extra walk : list Slot) (slot target : Slot).

Lemma registered_elem mappingKeys slot :
  registered mappingKeys slot = true ↔ slot ∈ mappingKeys.
Proof.
  unfold registered. rewrite existsb_exists. split.
  - intros (x & Hx%list_elem_of_In & ->%equalSlots_eq). done.
  - intros Hs. exists slot. split; [by apply list_elem_of_In |].
    apply equalSlots_refl.
Qed.

Lemma not_registered_elem mappingKeys slot :
  registered mappingKeys slot = false ↔ slot ∉ mappingKeys.
Proof.
  rewrite <- registered_elem. destruct (registered mappingKeys slot); naive_solver.
Qed.

(** The loop condition of [watchMappingKey]. *)
Lemma every_not_equal mappingKeys slot :
  forallb (λ existingSlot, negb (equalSlots existingSlot slot)) mappingKeys
  = negb (registered mappingKeys slot).
Proof.
  induction mappingKeys as [| e mappingKeys IH]; simpl; [done |].
  rewrite IH, negb_orb. done.
Qed.

Lemma every_not_equal_app mappingKeys extra slot :
  slot ∉ extra →
  forallb (λ existingSlot, negb (equalSlots existingSlot slot))
    (mappingKeys ++ extra)
  = negb (registered mappingKeys slot).
Proof.
  intros Hfresh%not_registered_elem.
  rewrite forallb_app, !every_not_equal, Hfresh. simpl. apply andb_true_r.
Qed.

Lemma visited_sublist mappingKeys walk slot :
  slot ∈ visited mappingKeys walk → slot ∈ walk ∧ slot ∉ mappingKeys.
Proof.
  induction walk as [| s walk IH]; simpl; [by intros ?%elem_of_nil |].
  destruct (registered mappingKeys s) eqn:E; [by intros ?%elem_of_nil |].
  intros [-> | Hin]%elem_of_cons.
  - split; [apply list_elem_of_here | by apply not_registered_elem].
  - destruct (IH Hin). split; [by apply list_elem_of_further | done].
Qed.

(** A slot of the chain is visited, or lies on the chain of a
    registered key (at or above the place where the walk stops). *)
Lemma chain_visited_or_above mappingKeys slot p :
  p ∈ chain slot →
  p ∈ visited mappingKeys (chain slot)
  ∨ ∃ q, q ∈ mappingKeys ∧ p ∈ chain q.
Proof.
  induction slot as [k h o | k parent h o IH] using Slot_path_ind.
  - intros Hp. cbn [chain visited] in *.
    destruct (registered mappingKeys (mkSlot k None h o)) eqn:E.
    + right. eexists. split; [by apply registered_elem |]. exact Hp.
    + left. exact Hp.
  - intros Hp. cbn [chain visited] in *.
    destruct (registered mappingKeys (mkSlot k (Some parent) h o)) eqn:E.
    + right. eexists. split; [by apply registered_elem |]. exact Hp.
    + apply elem_of_cons in Hp as [-> | Hp]; [left; apply list_elem_of_here |].
      destruct (IH Hp) as [Hv | Hq]; [left; by apply list_elem_of_further | by right].
Qed.

(** What [watchMappingKey]'s loop leaves in the registry: the old keys,
    then the keyed slots among the visited ones, leaf first. *)
Lemma watchLoop_app slot :
  ∀ mappingKeys extra,
    (∀ x, x ∈ extra → x ∉ chain slot) →
    watchLoop (mappingKeys ++ extra) slot
    = (mappingKeys ++ extra)
      ++ List.filter hasKey (visited mappingKeys (chain slot)).
Proof.
  induction slot as [k h o | k parent h o IH] using Slot_path_ind;
    intros mappingKeys extra Hextra.
  - cbn [watchLoop chain visited].
    rewrite every_not_equal_app
      by (intros Hin; apply (Hextra _ Hin), chain_self).
    destruct (registered mappingKeys (mkSlot k None h o)); simpl;
      [by rewrite app_nil_r |].
    destruct k; simpl; [done | by rewrite app_nil_r].
  - cbn [watchLoop chain visited].
    rewrite every_not_equal_app
      by (intros Hin; apply (Hextra _ Hin), chain_self).
    destruct (registered mappingKeys (mkSlot k (Some parent) h o)); simpl;
      [by rewrite app_nil_r |].
    assert (∀ x, x ∈ extra → x ∉ chain parent) as Hextra'.
    { intros x Hx Hp. apply (Hextra _ Hx). cbn [chain].
      by apply list_elem_of_further. }
    destruct k as [wrapped |]; cbn [hasKey key].
    + rewrite <- (app_assoc mappingKeys extra), IH.
      * by rewrite <- !app_assoc.
      * intros x [Hx | ->%list_elem_of_singleton]%elem_of_app; [by apply Hextra' |].
        apply (ancestors_irrefl (mkSlot (Some wrapped) (Some parent) h o)).
    + by apply IH.
Qed.

Lemma watchLoop_visited mappingKeys slot :
  watchLoop mappingKeys slot
  = mappingKeys ++ List.filter hasKey (visited mappingKeys (chain slot)).
Proof.
  pose proof (watchLoop_app slot mappingKeys []) as Happ.
  rewrite app_nil_r in Happ. apply Happ. by intros x ?%elem_of_nil.
Qed.

Lemma elem_of_filter_bool (f : Slot → bool) walk slot :
  slot ∈ List.filter f walk ↔ slot ∈ walk ∧ f slot = true.
Proof. rewrite !list_elem_of_In, filter_In. done. Qed.

(** The callback of [unwatchMappingKey] keeps a key iff the target is
    not on its chain. *)
Lemma unwatchKeeps_chain target existingSlot :
  unwatchKeeps target existingSlot = true ↔ target ∉ chain existingSlot.
Proof.
  induction existingSlot as [k h o | k parent h o IH] using Slot_path_ind;
    cbn [unwatchKeeps chain];
    destruct (equalSlots _ target) eqn:E;
    rewrite ?list_elem_of_singleton, ?elem_of_cons, ?IH;
    first [apply equalSlots_eq in E | apply equalSlots_neq in E];
    intuition congruence.
Qed.

Lemma unwatchKeeps_self target : unwatchKeeps target target = false.
Proof.
  destruct (unwatchKeeps target target) eqn:E; [| done].
  apply unwatchKeeps_chain in E. destruct E. apply chain_self.
Qed.

(** Both walks keep the registry closed under keyed ancestors and made
    of keyed slots only. *)
Lemma watchLoop_ancestorClosed mappingKeys slot :
  ancestorClosed mappingKeys → ancestorClosed (watchLoop mappingKeys slot).
Proof.
  intros Hclosed e p. rewrite watchLoop_visited, !elem_of_app.
  intros [He | He] Hp Hkey.
  - left. by apply (Hclosed e).
  - apply elem_of_filter_bool in He as [[He _]%visited_sublist _].
    destruct (chain_visited_or_above mappingKeys slot p) as [Hv | (q & Hq & Hpq)].
    + by apply (chain_trans _ e).
    + right. by apply elem_of_filter_bool.
    + left. by apply (Hclosed q).
Qed.

Lemma unwatch_ancestorClosed mappingKeys target :
  ancestorClosed mappingKeys →
  ancestorClosed (List.filter (unwatchKeeps target) mappingKeys).
Proof.
  intros Hclosed e p [He Hkeep]%elem_of_filter_bool Hp Hkey.
  apply elem_of_filter_bool. split; [by apply (Hclosed e) |].
  apply unwatchKeeps_chain. apply unwatchKeeps_chain in Hkeep.
  intros Ht. apply Hkeep. by apply (chain_trans _ p).
Qed.

Lemma watchLoop_keyed mappingKeys slot :
  Forall (λ s, hasKey s = true) mappingKeys →
  Forall (λ s, hasKey s = true) (watchLoop mappingKeys slot).
Proof.
  intros Hkeys. rewrite watchLoop_visited. apply Forall_app. split; [done |].
  apply Forall_forall. by intros s [_ ?]%elem_of_filter_bool.
Qed.

Lemma unwatch_keyed mappingKeys target :
  Forall (λ s, hasKey s = true) mappingKeys →
  Forall (λ s, hasKey s = true) (List.filter (unwatchKeeps target) mappingKeys).
Proof.
  rewrite !Forall_forall. intros Hkeys s [Hs _]%elem_of_filter_bool. by apply Hkeys.
Qed.

End WalkFacts.

(** ** The mapping-key registry *)

Section RegistryFacts.

Context {codec : Collaborators} {conversion : Conversion.Collaborator}.
Implicit Types (this : TruffleContractInstanceDecoder)
  (variable : VariableRef) (indices : list RawIndex) (calls : list Call).

(** [constructSlot] reads the allocation tables only. *)
Lemma constructSlot_static this this' variable indices :
  stateVariableReferences this' = stateVariableReferences this →
  referenceDeclarations this' = referenceDeclarations this →
  allocations_storage this' = allocations_storage this →
  constructSlot this' variable indices = constructSlot this variable indices.
Proof.
  intros Hvars Hdecl Hstorage. unfold constructSlot.
  induction (rev indices) as [| rawIndex parentIndices IH]; simpl.
  - unfold constructSlotBase, findAllocation. by rewrite Hvars.
  - rewrite IH. unfold constructSlotIndex. by rewrite Hdecl, Hstorage.
Qed.

Lemma set_mappingKeys_same this : set_mappingKeys this (mappingKeys this) = this.
Proof. by destruct this. Qed.

Lemma onWalk_chain (target existingSlot : Slot) :
  onWalk target existingSlot = true ↔ target ∈ chain existingSlot.
Proof. apply registered_elem. Qed.

Lemma unwatchKeeps_onWalk (target existingSlot : Slot) :
  unwatchKeeps target existingSlot = negb (onWalk target existingSlot).
Proof.
  pose proof (unwatchKeeps_chain target existingSlot) as Hk.
  pose proof (onWalk_chain target existingSlot) as Hw.
  destruct (unwatchKeeps target existingSlot), (onWalk target existingSlot);
    simpl; intuition congruence.
Qed.

Lemma newDecoder_invariant chainFn declarations storage variables :
  registryInvariant (newDecoder chainFn declarations storage variables).
Proof.
  split; [| by apply Forall_nil].
  by intros e p ?%elem_of_nil.
Qed.

Lemma call_invariant this c :
  registryInvariant this → registryInvariant (call this c).
Proof.
  intros [Hclosed Hkeys]. destruct c as [v i | v i | a s b]; simpl.
  - unfold watchMappingKey.
    destruct (constructSlot this v i) as [[[slot |] d] | e]; simpl; try done.
    split; [by apply watchLoop_ancestorClosed | by apply watchLoop_keyed].
  - unfold unwatchMappingKey.
    destruct (constructSlot this v i) as [[[slot |] d] | e]; simpl; try done.
    split; [by apply unwatch_ancestorClosed | by apply unwatch_keyed].
  - unfold getStorage.
    destruct (_ !! pretty s); [done |].
    destruct (getStorageAt _ _ _ _). done.
Qed.

Lemma run_invariant this calls :
  registryInvariant this → registryInvariant (run this calls).
Proof.
  revert this. induction calls as [| c calls IH]; intros this Hinv; [done |].
  apply IH, call_invariant, Hinv.
Qed.

(** C9: after any sequence of calls on a fresh instance, every slot in
    the registry has a defined key. *)
Theorem registry_holds_keyed_slots chainFn declarations storage variables calls :
  Forall (λ s, key s ≠ None)
    (mappingKeys (run (newDecoder chainFn declarations storage variables) calls)).
Proof.
  destruct (run_invariant _ calls
              (newDecoder_invariant chainFn declarations storage variables))
    as [_ Hkeys].
  eapply Forall_impl; [exact Hkeys |].
  intros s. unfold hasKey. by destruct (key s).
Qed.

(** C5: a watch whose slot chain resolves, on an instance reached by
    any sequence of calls: the registry becomes the old keys followed
    by the keyed slots met on the walk from the leaf up to the first
    slot already registered; afterwards every keyed slot of the chain
    is registered, in particular a keyed parent of the leaf, and no old
    key is lost. *)
Theorem watchMappingKey_registers_chain
    chainFn declarations storage variables calls
    variable indices slot definition :
  let this := run (newDecoder chainFn declarations storage variables) calls in
  constructSlot this variable indices = Ret (Some slot, definition) →
  ∃ this',
    watchMappingKey this variable indices = Ret this'
    ∧ mappingKeys this'
      = mappingKeys this
        ++ List.filter hasKey (visited (mappingKeys this) (chain slot))
    ∧ (∀ s, s ∈ chain slot → key s ≠ None → s ∈ mappingKeys this')
    ∧ (∀ parent, path slot = Some parent → key parent ≠ None →
         parent ∈ mappingKeys this')
    ∧ (∀ s, s ∈ mappingKeys this → s ∈ mappingKeys this').
Proof.
  intros this Hslot.
  assert (registryInvariant this) as [Hclosed _]
    by apply run_invariant, newDecoder_invariant.
  exists (set_mappingKeys this (watchLoop (mappingKeys this) slot)).
  assert (∀ s, s ∈ chain slot → key s ≠ None →
            s ∈ watchLoop (mappingKeys this) slot) as Hall.
  { intros s Hs Hkey. rewrite watchLoop_visited, elem_of_app.
    assert (hasKey s = true) as Hk by (unfold hasKey; by destruct (key s)).
    destruct (chain_visited_or_above (mappingKeys this) slot s Hs)
      as [Hv | (q & Hq & Hsq)].
    - right. by apply elem_of_filter_bool.
    - left. by apply (Hclosed q). }
  split; [| split; [| split; [| split]]].
  - unfold watchMappingKey. by rewrite Hslot.
  - apply watchLoop_visited.
  - exact Hall.
  - intros parent Hparent. apply Hall.
    rewrite chain_ancestors. unfold ancestors. rewrite Hparent.
    apply list_elem_of_further, chain_self.
  - intros s Hs. simpl. rewrite watchLoop_visited, elem_of_app. by left.
Qed.

(** C6: an unwatch whose target resolves keeps, in their order, the
    registered keys whose walk to the root does not meet the target, and
    removes the others: the target and the keys below it. *)
Theorem unwatchMappingKey_removes_descendants
    this variable indices target definition :
  constructSlot this variable indices = Ret (Some target, definition) →
  ∃ this',
    unwatchMappingKey this variable indices = Ret this'
    ∧ mappingKeys this'
      = List.filter (λ e, negb (onWalk target e)) (mappingKeys this)
    ∧ (∀ e, e ∈ mappingKeys this' ↔ e ∈ mappingKeys this ∧ target ∉ chain e).
Proof.
  intros Hslot.
  exists (set_mappingKeys this
            (List.filter (unwatchKeeps target) (mappingKeys this))).
  split; [| split].
  - unfold unwatchMappingKey. by rewrite Hslot.
  - simpl. apply filter_ext. intros e. apply unwatchKeeps_onWalk.
  - intros e. simpl. rewrite elem_of_filter_bool, unwatchKeeps_chain. done.
Qed.

(** A strict ancestor does not have the slot on its own chain. *)
Lemma ancestors_not_below (slot p : Slot) :
  p ∈ ancestors slot → slot ∉ chain p.
Proof.
  intros Hp Hslot. apply ancestors_shorter in Hp.
  rewrite (chain_ancestors p) in Hslot.
  apply elem_of_cons in Hslot as [-> | Hslot%ancestors_shorter]; lia.
Qed.

(** C7, as the code has it: a watch followed by an unwatch with the
    same arguments gives back the instance when, before the watch, no
    registered key has the watched slot on its chain and every keyed
    ancestor of the watched slot is registered already.  In every case
    both calls return, and an ancestor of the watched slot that is
    registered after the watch, so each ancestor that the watch itself
    adds, is still registered after the unwatch. *)
Theorem watch_then_unwatch_restores this variable indices slot definition :
  constructSlot this variable indices = Ret (Some slot, definition) →
  ((∀ e, e ∈ mappingKeys this → slot ∉ chain e) →
   (∀ p, p ∈ ancestors slot → key p ≠ None → p ∈ mappingKeys this) →
   (this' ← watchMappingKey this variable indices;
    unwatchMappingKey this' variable indices)
   = Ret this)
  ∧ ∃ this' this'',
      watchMappingKey this variable indices = Ret this'
      ∧ unwatchMappingKey this' variable indices = Ret this''
      ∧ ∀ p, p ∈ ancestors slot → p ∈ mappingKeys this' →
             p ∈ mappingKeys this''.
Proof.
  intros Hslot. split; [intros Hbelow Habove |].
  2: {
    exists (set_mappingKeys this (watchLoop (mappingKeys this) slot)).
    eexists. split; [unfold watchMappingKey; by rewrite Hslot |].
    split.
    - unfold unwatchMappingKey.
      rewrite (constructSlot_static this) by done. by rewrite Hslot.
    - intros p Hp Hin. simpl in *. apply elem_of_filter_bool.
      split; [exact Hin |]. by apply unwatchKeeps_chain, ancestors_not_below. }
  assert (List.filter (unwatchKeeps slot) (watchLoop (mappingKeys this) slot)
          = mappingKeys this) as Hback.
  { rewrite watchLoop_visited, List.filter_app.
    assert (List.filter (unwatchKeeps slot) (mappingKeys this) = mappingKeys this)
      as ->.
    { apply forallb_filter_id, forallb_forall.
      intros e He%list_elem_of_In. by apply unwatchKeeps_chain, Hbelow. }
    enough (List.filter (unwatchKeeps slot)
              (List.filter hasKey (visited (mappingKeys this) (chain slot))) = [])
      as -> by apply app_nil_r.
    rewrite chain_ancestors. cbn [visited].
    assert (registered (mappingKeys this) slot = false) as ->.
    { apply not_registered_elem. intros Hin.
      apply (Hbelow _ Hin), chain_self. }
    assert (List.filter hasKey (visited (mappingKeys this) (ancestors slot)) = [])
      as Hnone.
    { destruct (List.filter hasKey _) as [| p rest] eqn:E; [done |].
      assert (p ∈ List.filter hasKey (visited (mappingKeys this) (ancestors slot)))
        as [[Hp Hnew]%visited_sublist Hk]%elem_of_filter_bool
        by (rewrite E; apply list_elem_of_here).
      destruct Hnew. apply Habove; [done |].
      unfold hasKey in Hk. by destruct (key p). }
    cbn [List.filter]. rewrite Hnone.
    destruct (hasKey slot); simpl; [| done].
    by rewrite unwatchKeeps_self. }
  unfold watchMappingKey. rewrite Hslot. simpl.
  unfold unwatchMappingKey.
  rewrite (constructSlot_static this) by done. rewrite Hslot. simpl.
  rewrite Hback. by destruct this.
Qed.

End RegistryFacts.

Section RegistrySamples.

#[local] Existing Instance Sample.collaborators.
#[local] Existing Instance Sample.conversion.

(** C5, at the sample contract: [watch("a", "b", 5)] on the fresh
    instance registers [a["b"][5]] and [a["b"]]. *)
Lemma watchMappingKey_registers_chain_witness :
  ∃ this',
    watchMappingKey Sample.decoder (VarString "a") [RawString "b"; RawNumber 5]
    = Ret this'
    ∧ mappingKeys this' = [Sample.a_b_5; Sample.a_b]
    ∧ Sample.a_b ∈ mappingKeys this'.
Proof.
  destruct (watchMappingKey_registers_chain (codec := Sample.collaborators)
              Sample.chain ∅ {[ 20 := mkStorageAllocation Sample.variables ]}
              Sample.variables [] (VarString "a") [RawString "b"; RawNumber 5]
              Sample.a_b_5 (Some Sample.uint256))
    as (this' & Hwatch & Hkeys & _ & Hparent & _).
  - vm_compute. reflexivity.
  - exists this'. split; [exact Hwatch |]. split.
    + rewrite Hkeys. vm_compute. reflexivity.
    + apply Hparent; [reflexivity | discriminate].
Defined.

(** The sample instance after [watch("a", "b", 5)]. *)
Lemma sample_watched_keys :
  mappingKeys (run Sample.decoder [Watch (VarString "a") [RawString "b"; RawNumber 5]])
  = [Sample.a_b_5; Sample.a_b].
Proof. vm_compute. reflexivity. Qed.

(** C6, at the sample contract: after [watch("a", "b", 5)],
    [unwatch("a", "b")] removes [a["b"]] and [a["b"][5]] below it. *)
Lemma unwatchMappingKey_removes_descendants_witness :
  ∃ this',
    unwatchMappingKey
      (run Sample.decoder [Watch (VarString "a") [RawString "b"; RawNumber 5]])
      (VarString "a") [RawString "b"]
    = Ret this'
    ∧ mappingKeys this' = [].
Proof.
  destruct (unwatchMappingKey_removes_descendants (codec := Sample.collaborators)
              (run Sample.decoder
                 [Watch (VarString "a") [RawString "b"; RawNumber 5]])
              (VarString "a") [RawString "b"]
              Sample.a_b (Some Sample.innerMapping))
    as (this' & Hunwatch & Hkeys & _).
  - vm_compute. reflexivity.
  - exists this'. split; [exact Hunwatch |].
    rewrite Hkeys. vm_compute. reflexivity.
Defined.

(** C7 fails as stated: on the fresh instance, whose registry is empty,
    [watch("a", "b", 5)] then [unwatch("a", "b", 5)] leaves the key of
    [a["b"]], which the watch added, in the registry. *)
Lemma watch_then_unwatch_leaves_ancestor :
  mappingKeys Sample.decoder = []
  ∧ ∃ this',
      (this' ← watchMappingKey Sample.decoder (VarString "a")
                 [RawString "b"; RawNumber 5];
       unwatchMappingKey this' (VarString "a") [RawString "b"; RawNumber 5])
      = Ret this'
      ∧ mappingKeys this' = [Sample.a_b]
      ∧ mappingKeys this' ≠ mappingKeys Sample.decoder.
Proof.
  split; [reflexivity |].
  eexists. split; [vm_compute; reflexivity |].
  split; [reflexivity | discriminate].
Qed.

(** C7 as amended, at the sample contract: with [a["b"]] registered,
    [watch("a", "b", 5)] then [unwatch("a", "b", 5)] gives the instance
    back; on the fresh instance the same two calls leave [a["b"]], which
    the watch added, registered. *)
Lemma watch_then_unwatch_restores_witness :
  (let this := run Sample.decoder [Watch (VarString "a") [RawString "b"]] in
   mappingKeys this = [Sample.a_b]
   ∧ (this' ← watchMappingKey this (VarString "a")
                [RawString "b"; RawNumber 5];
      unwatchMappingKey this' (VarString "a") [RawString "b"; RawNumber 5])
     = Ret this)
  ∧ ∃ this' this'',
      watchMappingKey Sample.decoder (VarString "a")
        [RawString "b"; RawNumber 5] = Ret this'
      ∧ unwatchMappingKey this' (VarString "a") [RawString "b"; RawNumber 5]
        = Ret this''
      ∧ Sample.a_b ∈ mappingKeys this''.
Proof.
  split.
  - split; [vm_compute; reflexivity |].
    destruct (watch_then_unwatch_restores (codec := Sample.collaborators)
                (run Sample.decoder [Watch (VarString "a") [RawString "b"]])
                (VarString "a") [RawString "b"; RawNumber 5]
                Sample.a_b_5 (Some Sample.uint256)) as [Hrestore _];
      [vm_compute; reflexivity |].
    apply Hrestore.
    + intros e He. vm_compute in He. apply list_elem_of_singleton in He as ->.
      vm_compute.
      intros [Heq | Heq%list_elem_of_singleton]%elem_of_cons; discriminate Heq.
    + intros p Hp Hkey. vm_compute in Hp.
      apply elem_of_cons in Hp as [-> | ->%list_elem_of_singleton].
      * vm_compute. apply list_elem_of_here.
      * destruct Hkey. reflexivity.
  - destruct (watch_then_unwatch_restores (codec := Sample.collaborators)
                Sample.decoder (VarString "a") [RawString "b"; RawNumber 5]
                Sample.a_b_5 (Some Sample.uint256))
      as (_ & this' & this'' & Hwatch & Hunwatch & Hstay);
      [vm_compute; reflexivity |].
    exists this', this''. split; [exact Hwatch |]. split; [exact Hunwatch |].
    apply Hstay.
    + vm_compute. apply list_elem_of_here.
    + vm_compute in Hwatch. injection Hwatch as <-.
      vm_compute. apply list_elem_of_further, list_elem_of_here.
Defined.

End RegistrySamples.

(** ** The storage-word cache *)

Section CacheFacts.

Context {conversion : Conversion.Collaborator}.

Implicit Types (cache : StorageCache) (block slot : Z) (address key : string)
  (word : list Byte.byte) (this : TruffleContractInstanceDecoder).

Lemma lookup3_total cache block address key :
  ((cache !!! block) !!! address) !! key = lookup3 cache block address key.
Proof.
  unfold lookup3. rewrite !lookup_total_alt.
  destruct (cache !! block) as [byAddress |]; simpl; [| done].
  by destruct (byAddress !! address).
Qed.

Lemma lookup3_ensureBlock cache block block' address key :
  lookup3 (ensureBlock cache block) block' address key
  = lookup3 cache block' address key.
Proof.
  unfold ensureBlock, lookup3.
  destruct (cache !! block) eqn:E; [done |].
  destruct (decide (block' = block)) as [-> | Hne].
  - by rewrite lookup_insert_eq, E.
  - by rewrite lookup_insert_ne.
Qed.

Lemma lookup3_ensureAddress cache block address block' address' key :
  lookup3 (ensureAddress cache block address) block' address' key
  = lookup3 cache block' address' key.
Proof.
  unfold ensureAddress, lookup3. rewrite lookup_total_alt.
  destruct (default inhabitant (cache !! block) !! address) eqn:E; [done |].
  destruct (decide (block' = block)) as [-> | Hne];
    [| by rewrite lookup_insert_ne].
  rewrite lookup_insert_eq. simpl.
  destruct (decide (address' = address)) as [-> | Hne].
  - rewrite lookup_insert_eq. simpl.
    destruct (cache !! block) as [byAddress |]; simpl in *; [| done].
    by rewrite E.
  - rewrite lookup_insert_ne by done.
    by destruct (cache !! block).
Qed.

Lemma lookup3_store_eq cache block address key word :
  lookup3 (store cache block address key word) block address key = Some word.
Proof.
  unfold store, lookup3. rewrite lookup_insert_eq. simpl.
  rewrite lookup_insert_eq. simpl. apply lookup_insert_eq.
Qed.

Lemma lookup3_store_ne cache block address key word block' address' key' :
  (block', address', key') ≠ (block, address, key) →
  lookup3 (store cache block address key word) block' address' key'
  = lookup3 cache block' address' key'.
Proof.
  intros Hne. unfold store.
  destruct (decide (block' = block)) as [-> | Hb];
    [| unfold lookup3; by rewrite lookup_insert_ne].
  destruct (decide (address' = address)) as [-> | Ha].
  - assert (key' ≠ key) as Hk by congruence.
    unfold lookup3 at 1. rewrite lookup_insert_eq. simpl.
    rewrite lookup_insert_eq. simpl. rewrite lookup_insert_ne by done.
    apply lookup3_total.
  - unfold lookup3. rewrite lookup_insert_eq. simpl.
    rewrite lookup_insert_ne by done. rewrite lookup_total_alt.
    by destruct (cache !! block).
Qed.

(** A call of [getStorage], by whether the triple is cached. *)
Lemma getStorage_hit this address slot block word :
  cachedWord this address slot block = Some word →
  getStorage this address slot block = (word, this).
Proof.
  unfold cachedWord, getStorage. intros Hhit.
  rewrite lookup3_total, lookup3_ensureAddress, lookup3_ensureBlock, Hhit.
  f_equal. unfold lookup3 in Hhit.
  unfold ensureBlock, ensureAddress. rewrite lookup_total_alt.
  destruct (storageCache this !! block) as [byAddress |] eqn:Eb; [| done].
  rewrite Eb. simpl in *.
  destruct (byAddress !! address); [| done].
  by destruct this.
Qed.

Lemma getStorage_miss this address slot block :
  cachedWord this address slot block = None →
  ∃ this',
    getStorage this address slot block
    = (Conversion.toBytes (storageAt (web3 this) address slot block)
         EVM.WORD_SIZE, this')
    ∧ reads (web3 this') = reads (web3 this) ++ [(address, slot, block)]
    ∧ storageAt (web3 this') = storageAt (web3 this)
    ∧ mappingKeys this' = mappingKeys this
    ∧ cachedWord this' address slot block
      = Some (Conversion.toBytes (storageAt (web3 this) address slot block)
                EVM.WORD_SIZE)
    ∧ ∀ address' slot' block',
        (address', slot', block') ≠ (address, slot, block) →
        cachedWord this' address' slot' block'
        = cachedWord this address' slot' block'.
Proof.
  unfold cachedWord, getStorage. intros Hmiss.
  rewrite lookup3_total, lookup3_ensureAddress, lookup3_ensureBlock, Hmiss.
  simpl. eexists. split; [reflexivity |]. simpl.
  split; [done |]. split; [done |]. split; [done |].
  split; [apply lookup3_store_eq |].
  intros address' slot' block' Hne.
  rewrite lookup3_store_ne, lookup3_ensureAddress, lookup3_ensureBlock; [done |].
  intros [= -> -> ->%(inj pretty)]. done.
Qed.

End CacheFacts.

Section CacheRuns.

Context {codec : Collaborators} {conversion : Conversion.Collaborator}.
Implicit Types (this : TruffleContractInstanceDecoder) (calls : list Call).

Lemma newDecoder_cacheInvariant chainFn declarations storage variables :
  cacheInvariant (newDecoder chainFn declarations storage variables).
Proof.
  split; [apply NoDup_nil_2 |].
  by intros address slot block ?%elem_of_nil.
Qed.

Lemma getStorage_cacheInvariant this address slot block :
  cacheInvariant this →
  cacheInvariant (getStorage this address slot block).2.
Proof.
  intros (Hnodup & Hread).
  destruct (cachedWord this address slot block) as [word |] eqn:E.
  - by rewrite (getStorage_hit _ _ _ _ _ E).
  - destruct (getStorage_miss _ _ _ _ E)
      as (this' & -> & Hreads & _ & _ & Hnew & Hold).
    simpl. split.
    + rewrite Hreads. apply NoDup_app. split; [done |]. split.
      * intros triple Hin ->%list_elem_of_singleton.
        destruct (Hread _ _ _ Hin) as [w Hw]. congruence.
      * apply NoDup_singleton.
    + intros address' slot' block'. rewrite Hreads, elem_of_app.
      intros [Hin | [= -> -> ->]%list_elem_of_singleton].
      * destruct (decide ((address', slot', block') = (address, slot, block)))
          as [[= -> -> ->] | Hne]; [by rewrite Hnew |].
        rewrite Hold by done. by apply Hread.
      * by rewrite Hnew.
Qed.

Lemma call_cacheInvariant this c :
  cacheInvariant this → cacheInvariant (call this c).
Proof.
  intros Hinv. destruct c as [v i | v i | a s b]; simpl.
  - unfold watchMappingKey.
    by destruct (constructSlot this v i) as [[[slot |] d] | e].
  - unfold unwatchMappingKey.
    by destruct (constructSlot this v i) as [[[slot |] d] | e].
  - by apply getStorage_cacheInvariant.
Qed.

Lemma run_cacheInvariant this calls :
  cacheInvariant this → cacheInvariant (run this calls).
Proof.
  revert this. induction calls as [| c calls IH]; intros this Hinv; [done |].
  apply IH, call_cacheInvariant, Hinv.
Qed.

(** C1: a call of [getStorage] on a cached triple returns the cached
    entry and leaves the instance, so also the log of chain reads, as it
    was; on a triple that is not cached it issues one read, of that
    triple, returns the word made of the reply and caches it under the
    triple.  After any sequence of calls on a fresh instance no triple
    occurs twice in the log of chain reads. *)
Theorem getStorage_reads_each_triple_once :
  (∀ this address slot block,
     match cachedWord this address slot block with
     | Some cached => getStorage this address slot block = (cached, this)
     | None =>
         let word :=
           Conversion.toBytes (storageAt (web3 this) address slot block)
             EVM.WORD_SIZE in
         ∃ this',
           getStorage this address slot block = (word, this')
           ∧ reads (web3 this') = reads (web3 this) ++ [(address, slot, block)]
           ∧ cachedWord this' address slot block = Some word
     end)
  ∧ (∀ chainFn declarations storage variables calls,
       NoDup (reads (web3 (run (newDecoder chainFn declarations storage
                                  variables) calls)))).
Proof.
  split.
  - intros this address slot block.
    destruct (cachedWord this address slot block) as [cached |] eqn:E.
    + by apply getStorage_hit.
    + destruct (getStorage_miss _ _ _ _ E)
        as (this' & Hget & Hreads & _ & _ & Hnew & _).
      by exists this'.
  - intros chainFn declarations storage variables calls.
    by destruct (run_cacheInvariant _ calls
                   (newDecoder_cacheInvariant chainFn declarations storage
                      variables)) as [Hnodup _].
Qed.

End CacheRuns.

Section CacheSamples.

#[local] Existing Instance Sample.collaborators.
#[local] Existing Instance Sample.conversion.

(** Three calls on the sample instance, two of them for the same
    triple: two chain reads, and the second call returns the cached
    word. *)
Example sample_getStorage_reads :
  let this := run Sample.decoder
                [GetStorage "0xabc" 0 7; GetStorage "0xabc" 0 7;
                 GetStorage "0xabc" 1 7] in
  reads (web3 this) = [("0xabc", 0, 7); ("0xabc", 1, 7)]
  ∧ (getStorage this "0xabc" 0 7).1 = replicate 31 Byte.x00 ++ [Byte.x01]
  ∧ reads (web3 (getStorage this "0xabc" 0 7).2) = reads (web3 this).
Proof. vm_compute. done. Qed.

End CacheSamples.

(** * Further properties *)

(** ** Slot construction: the remaining cases *)

Section ConstructSlotCases.

Context {codec : Collaborators}.
Implicit Types (this : TruffleContractInstanceDecoder)
  (variable : VariableRef) (indices more : list RawIndex).

(** Case analysis on the calls an equation about a result runs
    through, first call first. *)
Ltac first_call e :=
  lazymatch e with
  | mbind _ ?e' => first_call e'
  | match ?e' with _ => _ end => first_call e'
  | _ => e
  end.

Ltac run_through H :=
  repeat (cbn beta iota zeta delta [mbind result_bind] in H;
          lazymatch type of H with
          | ?lhs = _ =>
              let e := first_call lhs in
              lazymatch e with
              | Ret _ => fail
              | Throw _ => fail
              | _ => destruct e eqn:?; try discriminate H
              end
          end);
  cbn beta iota zeta delta [mbind result_bind] in H.

Lemma constructSlotBase_none this variable definition :
  constructSlotBase this variable = Ret (None, definition) → definition = None.
Proof.
  unfold constructSlotBase. intros Hb. run_through Hb; congruence.
Qed.

Lemma constructSlotIndex_none this parentSlot parentDefinition rawIndex definition :
  constructSlotIndex this parentSlot parentDefinition rawIndex
  = Ret (None, definition) →
  definition = None.
Proof.
  unfold constructSlotIndex. intros Hi. run_through Hi; congruence.
Qed.

Lemma constructSlotIndex_path this parentSlot parentDefinition rawIndex s definition :
  constructSlotIndex this parentSlot parentDefinition rawIndex
  = Ret (Some s, definition) →
  path s = Some parentSlot.
Proof.
  unfold constructSlotIndex. intros Hi. run_through Hi; by simplify_eq.
Qed.

Lemma constructSlot_none this variable indices definition :
  constructSlot this variable indices = Ret (None, definition) →
  definition = None.
Proof.
  destruct indices as [| rawIndex indices _] using rev_ind.
  - apply constructSlotBase_none.
  - rewrite constructSlot_snoc.
    destruct (constructSlot this variable indices) as [[[p |] d] | e]; simpl.
    + apply constructSlotIndex_none.
    + by intros [= <-].
    + discriminate.
Qed.

Lemma constructSlot_none_final this variable indices definition more :
  constructSlot this variable indices = Ret (None, definition) →
  constructSlot this variable (indices ++ more) = Ret (None, None).
Proof.
  intros Hnone. rewrite (constructSlot_none _ _ _ _ Hnone) in Hnone.
  induction more as [| rawIndex more IH] using rev_ind.
  - by rewrite app_nil_r.
  - by rewrite app_assoc, constructSlot_snoc, IH.
Qed.

Lemma constructSlot_throw_final this variable indices e more :
  constructSlot this variable indices = Throw e →
  constructSlot this variable (indices ++ more) = Throw e.
Proof.
  intros Hthrow. induction more as [| rawIndex more IH] using rev_ind.
  - by rewrite app_nil_r.
  - by rewrite app_assoc, constructSlot_snoc, IH.
Qed.

(** X1: once a chain of indices has no slot, no longer chain has one:
    every extension gives the "no slot" pair; and a chain on which
    [constructSlot] raises makes it raise the same on every extension. *)
Theorem constructSlot_failure_is_final this variable indices :
  (∀ definition more,
     constructSlot this variable indices = Ret (None, definition) →
     constructSlot this variable (indices ++ more) = Ret (None, None))
  ∧ (∀ e more,
       constructSlot this variable indices = Throw e →
       constructSlot this variable (indices ++ more) = Throw e).
Proof.
  split.
  - intros definition more Hnone.
    rewrite (constructSlot_none _ _ _ _ Hnone) in Hnone.
    induction more as [| rawIndex more IH] using rev_ind.
    + by rewrite app_nil_r.
    + by rewrite app_assoc, constructSlot_snoc, IH.
  - intros e more Hthrow.
    induction more as [| rawIndex more IH] using rev_ind.
    + by rewrite app_nil_r.
    + by rewrite app_assoc, constructSlot_snoc, IH.
Qed.

Lemma constructSlot_prefix_chain this variable indices more s definition :
  constructSlot this variable (indices ++ more) = Ret (Some s, definition) →
  ∃ parentSlot parentDefinition,
    constructSlot this variable indices = Ret (Some parentSlot, parentDefinition)
    ∧ parentSlot ∈ chain s
    ∧ length (chain s) = (length (chain parentSlot) + length more)%nat.
Proof.
  revert s definition.
  induction more as [| rawIndex more IH] using rev_ind; intros s definition.
  - rewrite app_nil_r. intros Hs. exists s, definition.
    split; [done |]. split; [apply chain_self | simpl; lia].
  - rewrite app_assoc, constructSlot_snoc.
    destruct (constructSlot this variable (indices ++ more))
      as [[[p |] d] | e] eqn:Hp; simpl; try discriminate.
    intros Hpath%constructSlotIndex_path.
    destruct (IH _ _ eq_refl) as (q & qd & Hq & Hin & Hlen).
    exists q, qd. split; [done |].
    rewrite (chain_ancestors s). unfold ancestors. rewrite Hpath.
    split; [by apply list_elem_of_further |].
    rewrite length_app. simpl. lia.
Qed.

(** X2: the slot of a chain of indices has the slot of every shorter
    chain on its path, one link further up for each index dropped. *)
Theorem constructSlot_prefix_on_chain this variable indices more s definition :
  constructSlot this variable (indices ++ more) = Ret (Some s, definition) →
  ∃ parentSlot parentDefinition,
    constructSlot this variable indices = Ret (Some parentSlot, parentDefinition)
    ∧ parentSlot ∈ chain s
    ∧ length (chain s) = (length (chain parentSlot) + length more)%nat.
Proof.
  revert s definition.
  induction more as [| rawIndex more IH] using rev_ind; intros s definition.
  - rewrite app_nil_r. intros Hs. exists s, definition.
    split; [done |]. split; [apply chain_self | simpl; lia].
  - rewrite app_assoc, constructSlot_snoc.
    destruct (constructSlot this variable (indices ++ more))
      as [[[p |] d] | e] eqn:Hp; simpl; try discriminate.
    intros Hpath%constructSlotIndex_path.
    destruct (IH _ _ eq_refl) as (q & qd & Hq & Hin & Hlen).
    exists q, qd. split; [done |].
    rewrite (chain_ancestors s). unfold ancestors. rewrite Hpath.
    split; [by apply list_elem_of_further |].
    rewrite length_app. simpl. lia.
Qed.

(** X3: indexing a struct whose slot resolved, by the position of a
    member or by its name: the slot has the parent as path, the offset
    of the member's own slot, no key and no [hashPath], and the
    definition returned is the member's. *)
Theorem constructSlot_struct this variable indices rawIndex
    parentSlot parentDefinition parentId structAllocation allocation range :
  constructSlot this variable indices = Ret (Some parentSlot, parentDefinition) →
  typeClass parentDefinition = Ret "struct" →
  typeId parentDefinition = Ret parentId →
  allocations_storage this !! parentId = Some structAllocation →
  structMember (members structAllocation) rawIndex = Some allocation →
  pointer allocation = StoragePointer range →
  constructSlot this variable (indices ++ [rawIndex]) =
  Ret (Some {| key := None; path := Some parentSlot; hashPath := None;
               offset := offset (slot (from range)) |},
       Some (Codec.definition allocation)).
Proof.
  intros Hparent Hclass Hid Hstorage Hmember Hpointer.
  rewrite (constructSlot_snoc_parent _ _ _ _ _ _ Hparent).
  unfold constructSlotIndex. rewrite Hclass. simpl. rewrite Hid. simpl.
  rewrite Hstorage. simpl. fold (structMember (members structAllocation) rawIndex).
  rewrite Hmember. simpl. rewrite Hpointer. reflexivity.
Qed.

(** X4: indexing a struct whose slot resolved by something that selects
    no member (a name no member has, a position outside the members, a
    big number or a boolean) raises a [TypeError]: the "no slot" pair is
    not returned. *)
Theorem constructSlot_struct_unknown_member this variable indices rawIndex
    parentSlot parentDefinition parentId structAllocation :
  constructSlot this variable indices = Ret (Some parentSlot, parentDefinition) →
  typeClass parentDefinition = Ret "struct" →
  typeId parentDefinition = Ret parentId →
  allocations_storage this !! parentId = Some structAllocation →
  structMember (members structAllocation) rawIndex = None →
  constructSlot this variable (indices ++ [rawIndex]) = Throw TypeError.
Proof.
  intros Hparent Hclass Hid Hstorage Hmember.
  rewrite (constructSlot_snoc_parent _ _ _ _ _ _ Hparent).
  unfold constructSlotIndex. rewrite Hclass. simpl. rewrite Hid. simpl.
  rewrite Hstorage. simpl. fold (structMember (members structAllocation) rawIndex).
  rewrite Hmember. reflexivity.
Qed.

Lemma structMember_not_a_member (members : list StorageMemberAllocation) rawIndex :
  match rawIndex with
  | RawBN _ | RawBoolean _ => True
  | RawNumber index => index < 0 ∨ Z.of_nat (length members) ≤ index
  | RawString name =>
      Forall (λ a, def_name (Codec.definition a) ≠ name) members
  end →
  structMember members rawIndex = None.
Proof.
  destruct rawIndex as [n | index | name | b]; simpl.
  - intros _. by induction members.
  - intros Hout. case_bool_decide; [| done].
    apply lookup_ge_None. lia.
  - intros Hall. induction Hall as [| a members Ha _ IH]; simpl; [done |].
    by rewrite bool_decide_eq_false_2.
  - intros _. by induction members.
Qed.

(** X5: indexing a parent whose slot resolved and whose type is none
    of array, mapping and struct gives the "no slot" pair, and so does
    every longer chain. *)
Theorem constructSlot_not_indexable this variable indices rawIndex more
    parentSlot parentDefinition class :
  constructSlot this variable indices = Ret (Some parentSlot, parentDefinition) →
  typeClass parentDefinition = Ret class →
  class ≠ "array" → class ≠ "mapping" → class ≠ "struct" →
  constructSlot this variable (indices ++ rawIndex :: more) = Ret (None, None).
Proof.
  intros Hparent Hclass Harray Hmapping Hstruct.
  rewrite (cons_middle rawIndex), app_assoc.
  apply (constructSlot_none_final _ _ _ None).
  rewrite (constructSlot_snoc_parent _ _ _ _ _ _ Hparent).
  unfold constructSlotIndex. rewrite Hclass. simpl.
  by rewrite !bool_decide_eq_false_2.
Qed.

Lemma constructSlot_by_allocation this variable variable' indices :
  findAllocation this variable = findAllocation this variable' →
  constructSlot this variable indices = constructSlot this variable' indices.
Proof.
  intros Hfind. unfold constructSlot.
  induction (rev indices) as [| rawIndex parentIndices IH]; simpl.
  - unfold constructSlotBase. by rewrite Hfind.
  - by rewrite IH.
Qed.

(** X6: a variable may be given by its id as a numeric string: when no
    variable has the string as its name, [constructSlot] returns for the
    string what it returns for the number the string converts to. *)
Theorem constructSlot_numeric_string this name id indices :
  toNumber name = Some id →
  Forall (λ a, def_name (Codec.definition a) ≠ name)
    (stateVariableReferences this) →
  constructSlot this (VarString name) indices
  = constructSlot this (VarNumber id) indices.
Proof.
  intros Hnumber Hnames. apply constructSlot_by_allocation.
  unfold findAllocation. revert Hnames.
  generalize (stateVariableReferences this). intros references Hnames.
  induction Hnames as [| a references Ha _ IH]; cbn [List.find]; [done |].
  assert (matchesVariable (VarString name) (Codec.definition a)
          = matchesVariable (VarNumber id) (Codec.definition a)) as ->
    by (simpl; by rewrite Hnumber, (bool_decide_eq_false_2 _ Ha)).
  by rewrite IH.
Qed.

End ConstructSlotCases.

Section ConstructSlotCasesSamples.

#[local] Existing Instance Sample.conversion.

(** X1, at the sample contract: the constant [k], and no [nope]. *)
Lemma constructSlot_failure_is_final_witness :
  constructSlot (codec := Sample.collaborators) Sample.decoder (VarString "k")
    ([] ++ [RawNumber 0; RawString "x"]) = Ret (None, None)
  ∧ constructSlot (codec := Sample.collaborators) Sample.decoder
      (VarString "nope") ([] ++ [RawNumber 0; RawString "x"]) = Throw TypeError.
Proof.
  split.
  - apply (proj1 (constructSlot_failure_is_final (codec := Sample.collaborators)
                    Sample.decoder (VarString "k") []) None).
    vm_compute. reflexivity.
  - apply (proj2 (constructSlot_failure_is_final (codec := Sample.collaborators)
                    Sample.decoder (VarString "nope") [])).
    vm_compute. reflexivity.
Defined.

(** X2, at the sample contract: [a["b"]] is on the path of
    [a["b"][5]]. *)
Lemma constructSlot_prefix_on_chain_witness :
  ∃ parentSlot parentDefinition,
    constructSlot (codec := Sample.collaborators) Sample.decoder (VarString "a")
      [RawString "b"] = Ret (Some parentSlot, parentDefinition)
    ∧ parentSlot ∈ chain Sample.a_b_5
    ∧ length (chain Sample.a_b_5)
      = (length (chain parentSlot) + length [RawNumber 5])%nat.
Proof.
  apply (constructSlot_prefix_on_chain (codec := Sample.collaborators)
           Sample.decoder (VarString "a") [RawString "b"] [RawNumber 5]
           Sample.a_b_5 (Some Sample.uint256)).
  vm_compute. reflexivity.
Defined.

(** X3, at the struct sample: [p.y], by name. *)
Lemma constructSlot_struct_witness :
  constructSlot (codec := StructSample.collaborators) StructSample.decoder
    (VarString "p") ([] ++ [RawString "y"])
  = Ret (Some (mkSlot None (Some (Sample.rootSlot 3)) None 1),
         Some StructSample.y).
Proof.
  apply (constructSlot_struct (codec := StructSample.collaborators)
           StructSample.decoder (VarString "p") [] (RawString "y")
           (Sample.rootSlot 3) (Some StructSample.p) 30
           (mkStorageAllocation StructSample.members)
           (mkStorageMemberAllocation StructSample.y (Sample.wordAt 1))
           (mkRange (mkStoragePosition (Sample.rootSlot 1) 0)
                    (mkStoragePosition (Sample.rootSlot 1) 31)));
    vm_compute; reflexivity.
Defined.

(** X4, at the struct sample: [p] has no member [z], and no third
    member. *)
Lemma constructSlot_struct_unknown_member_witness :
  constructSlot (codec := StructSample.collaborators) StructSample.decoder
    (VarString "p") ([] ++ [RawString "z"]) = Throw TypeError
  ∧ constructSlot (codec := StructSample.collaborators) StructSample.decoder
      (VarString "p") ([] ++ [RawNumber 2]) = Throw TypeError.
Proof.
  split.
  - apply (constructSlot_struct_unknown_member
             (codec := StructSample.collaborators)
             StructSample.decoder (VarString "p") [] (RawString "z")
             (Sample.rootSlot 3) (Some StructSample.p) 30
             (mkStorageAllocation StructSample.members));
      vm_compute; reflexivity.
  - apply (constructSlot_struct_unknown_member
             (codec := StructSample.collaborators)
             StructSample.decoder (VarString "p") [] (RawNumber 2)
             (Sample.rootSlot 3) (Some StructSample.p) 30
             (mkStorageAllocation StructSample.members));
      vm_compute; reflexivity.
Defined.

(** X5, at the sample contract: [xs[4]] is a [uint256], so [xs[4][0]]
    and [xs[4][0][1]] have no slot. *)
Lemma constructSlot_not_indexable_witness :
  constructSlot (codec := Sample.collaborators) Sample.decoder (VarString "xs")
    ([RawNumber 4] ++ RawNumber 0 :: [RawNumber 1]) = Ret (None, None).
Proof.
  apply (constructSlot_not_indexable (codec := Sample.collaborators)
           Sample.decoder (VarString "xs") [RawNumber 4] (RawNumber 0)
           [RawNumber 1]
           (mkSlot None (Some (Sample.rootSlot 1)) (Some true) 4)
           (Some Sample.uint256) "uint");
    first [vm_compute; reflexivity | discriminate].
Defined.

(** X6, at the sample contract: [xs] has id 3. *)
Lemma constructSlot_numeric_string_witness :
  constructSlot (codec := Sample.collaborators) Sample.decoder (VarString "3")
    [RawNumber 4]
  = constructSlot (codec := Sample.collaborators) Sample.decoder (VarNumber 3)
      [RawNumber 4].
Proof.
  apply (constructSlot_numeric_string (codec := Sample.collaborators)).
  - vm_compute. reflexivity.
  - repeat constructor; simpl; discriminate.
Defined.

End ConstructSlotCasesSamples.

(** ** The registry: further invariants and laws *)

Section RegistryLaws.

Context {codec : Collaborators} {conversion : Conversion.Collaborator}.
Implicit Types (this : TruffleContractInstanceDecoder)
  (variable : VariableRef) (indices more : list RawIndex) (calls : list Call)
  (mappingKeys extra walk : list Slot) (slot target : Slot).

Lemma chain_NoDup slot : NoDup (chain slot).
Proof.
  induction slot as [k h o | k parent h o IH] using Slot_path_ind;
    cbn [chain].
  - apply NoDup_singleton.
  - apply NoDup_cons. split; [| exact IH].
    apply (ancestors_irrefl (mkSlot k (Some parent) h o)).
Qed.

Lemma visited_NoDup mappingKeys walk :
  NoDup walk → NoDup (visited mappingKeys walk).
Proof.
  induction 1 as [| s walk Hs _ IH]; simpl; [apply NoDup_nil_2 |].
  destruct (registered mappingKeys s); [apply NoDup_nil_2 |].
  apply NoDup_cons. split; [| exact IH].
  by intros [? _]%visited_sublist.
Qed.

Lemma visited_more_keys mappingKeys extra walk s :
  s ∈ visited (mappingKeys ++ extra) walk → s ∈ visited mappingKeys walk.
Proof.
  induction walk as [| a walk IH]; simpl; [done |].
  destruct (registered (mappingKeys ++ extra) a) eqn:E;
    [by intros ?%elem_of_nil |].
  assert (registered mappingKeys a = false) as ->.
  { apply not_registered_elem. apply not_registered_elem in E.
    intros Hin. apply E, elem_of_app. by left. }
  intros [-> | Hin]%elem_of_cons;
    [apply list_elem_of_here | by apply list_elem_of_further, IH].
Qed.

Lemma filter_bool_NoDup (f : Slot → bool) walk :
  NoDup walk → NoDup (List.filter f walk).
Proof. rewrite !NoDup_ListNoDup. apply List.NoDup_filter. Qed.

Lemma filter_bool_nil (f : Slot → bool) walk :
  (∀ s, s ∈ walk → f s = false) → List.filter f walk = [].
Proof.
  induction walk as [| a walk IH]; simpl; [done |].
  intros Hall. rewrite (Hall a) by apply list_elem_of_here.
  apply IH. intros s Hs. by apply Hall, list_elem_of_further.
Qed.

Lemma watchLoop_NoDup mappingKeys slot :
  NoDup mappingKeys → NoDup (watchLoop mappingKeys slot).
Proof.
  intros Hnodup. rewrite watchLoop_visited. apply NoDup_app.
  split; [done |]. split.
  - intros s Hs [[_ Hnew]%visited_sublist _]%elem_of_filter_bool. done.
  - apply filter_bool_NoDup, visited_NoDup, chain_NoDup.
Qed.

Lemma watchLoop_registers mappingKeys slot s :
  ancestorClosed mappingKeys → s ∈ chain slot → hasKey s = true →
  s ∈ watchLoop mappingKeys slot.
Proof.
  intros Hclosed Hs Hkey. rewrite watchLoop_visited, elem_of_app.
  destruct (chain_visited_or_above mappingKeys slot s Hs)
    as [Hv | (q & Hq & Hsq)].
  - right. by apply elem_of_filter_bool.
  - left. by apply (Hclosed q).
Qed.

Lemma watchLoop_again mappingKeys slot :
  watchLoop (watchLoop mappingKeys slot) slot = watchLoop mappingKeys slot.
Proof.
  rewrite (watchLoop_visited (watchLoop mappingKeys slot)).
  rewrite filter_bool_nil; [apply app_nil_r |].
  intros s Hs. destruct (hasKey s) eqn:Hkey; [| done].
  destruct (visited_sublist _ _ _ Hs) as [_ Hnew]. destruct Hnew.
  rewrite watchLoop_visited in Hs |- *.
  apply visited_more_keys in Hs.
  apply elem_of_app. right. by apply elem_of_filter_bool.
Qed.

Lemma filter_again (f : Slot → bool) walk :
  List.filter f (List.filter f walk) = List.filter f walk.
Proof.
  apply forallb_filter_id, forallb_forall. by intros s [_ ?]%filter_In.
Qed.

Lemma run_NoDup this calls :
  NoDup (mappingKeys this) → NoDup (mappingKeys (run this calls)).
Proof.
  revert this. induction calls as [| c calls IH]; intros this Hnodup; [done |].
  apply IH. destruct c as [v i | v i | a s b]; simpl.
  - unfold watchMappingKey.
    destruct (constructSlot this v i) as [[[slot |] d] | e]; simpl; try done.
    by apply watchLoop_NoDup.
  - unfold unwatchMappingKey.
    destruct (constructSlot this v i) as [[[slot |] d] | e]; simpl; try done.
    by apply filter_bool_NoDup.
  - unfold getStorage.
    destruct (_ !! pretty s); [done |].
    by destruct (getStorageAt _ _ _ _).
Qed.

Lemma call_sameTables this c : sameTables this (call this c).
Proof.
  destruct c as [v i | v i | a s b]; simpl.
  - unfold watchMappingKey.
    by destruct (constructSlot this v i) as [[[slot |] d] | e].
  - unfold unwatchMappingKey.
    by destruct (constructSlot this v i) as [[[slot |] d] | e].
  - unfold getStorage.
    destruct (_ !! pretty s); [done |].
    by destruct (getStorageAt _ _ _ _).
Qed.

Lemma run_sameTables this calls : sameTables this (run this calls).
Proof.
  revert this. induction calls as [| c calls IH]; intros this; [done |].
  destruct (call_sameTables this c) as (Hv & Hd & Hs).
  destruct (IH (call this c)) as (Hv' & Hd' & Hs').
  repeat split; simpl; congruence.
Qed.

(** X7: after any sequence of calls on a fresh instance, no slot is
    registered twice. *)
Theorem registry_has_no_duplicates chainFn declarations storage variables calls :
  NoDup (mappingKeys (run (newDecoder chainFn declarations storage variables)
                        calls)).
Proof. apply run_NoDup, NoDup_nil_2. Qed.

(** X8: after any sequence of calls on a fresh instance, every keyed
    slot above a registered key is registered too: the walk of
    [watchMappingKey] may stop at the first slot it finds registered. *)
Theorem registry_is_ancestor_closed chainFn declarations storage variables calls :
  ancestorClosed
    (mappingKeys (run (newDecoder chainFn declarations storage variables) calls)).
Proof.
  by destruct (run_invariant _ calls
                 (newDecoder_invariant chainFn declarations storage variables)).
Qed.

(** X9: a watch registers the mapping keys of all the shorter chains:
    after any sequence of calls on a fresh instance, when the watched
    chain resolves, the slot of each of its prefixes that has a key is
    registered after the watch. *)
Theorem watchMappingKey_registers_prefixes
    chainFn declarations storage variables calls
    variable indices more slot definition prefixSlot prefixDefinition :
  let this := run (newDecoder chainFn declarations storage variables) calls in
  constructSlot this variable (indices ++ more) = Ret (Some slot, definition) →
  constructSlot this variable indices = Ret (Some prefixSlot, prefixDefinition) →
  key prefixSlot ≠ None →
  ∃ this',
    watchMappingKey this variable (indices ++ more) = Ret this'
    ∧ prefixSlot ∈ mappingKeys this'.
Proof.
  intros this Hslot Hprefix Hkey.
  exists (set_mappingKeys this (watchLoop (mappingKeys this) slot)).
  split; [unfold watchMappingKey; by rewrite Hslot |].
  destruct (constructSlot_prefix_chain _ _ _ _ _ _ Hslot)
    as (p & pd & Hp & Hin & _).
  assert (p = prefixSlot) as -> by congruence.
  simpl. apply watchLoop_registers; [| done |].
  - by destruct (run_invariant _ calls
                   (newDecoder_invariant chainFn declarations storage variables)).
  - unfold hasKey. by destruct (key prefixSlot).
Qed.

(** X10: watching twice with the same arguments is watching once. *)
Theorem watchMappingKey_idempotent this variable indices :
  (this' ← watchMappingKey this variable indices;
   watchMappingKey this' variable indices)
  = watchMappingKey this variable indices.
Proof.
  unfold watchMappingKey at 2 3.
  destruct (constructSlot this variable indices) as [[[slot |] d] | e] eqn:E;
    simpl; [| unfold watchMappingKey; by rewrite E | done].
  unfold watchMappingKey.
  rewrite (constructSlot_static this) by done. rewrite E. simpl.
  by rewrite watchLoop_again.
Qed.

(** X11: unwatching twice with the same arguments is unwatching
    once. *)
Theorem unwatchMappingKey_idempotent this variable indices :
  (this' ← unwatchMappingKey this variable indices;
   unwatchMappingKey this' variable indices)
  = unwatchMappingKey this variable indices.
Proof.
  unfold unwatchMappingKey at 2 3.
  destruct (constructSlot this variable indices) as [[[slot |] d] | e] eqn:E;
    simpl; [| unfold unwatchMappingKey; by rewrite E | done].
  unfold unwatchMappingKey.
  rewrite (constructSlot_static this) by done. rewrite E. simpl.
  by rewrite filter_again.
Qed.

(** X12: a watch whose chain has no slot with a key (no mapping is
    indexed on the way) returns the instance as it was. *)
Theorem watchMappingKey_without_keys this variable indices slot definition :
  constructSlot this variable indices = Ret (Some slot, definition) →
  (∀ s, s ∈ chain slot → key s = None) →
  watchMappingKey this variable indices = Ret this.
Proof.
  intros Hslot Hnone. unfold watchMappingKey. rewrite Hslot. simpl.
  rewrite watchLoop_visited, filter_bool_nil.
  - rewrite app_nil_r. by destruct this.
  - intros s [Hs _]%visited_sublist. unfold hasKey. by rewrite (Hnone s Hs).
Qed.

(** X13: an unwatch whose target is on the chain of no registered key
    returns the instance as it was. *)
Theorem unwatchMappingKey_not_watched this variable indices target definition :
  constructSlot this variable indices = Ret (Some target, definition) →
  (∀ e, e ∈ mappingKeys this → target ∉ chain e) →
  unwatchMappingKey this variable indices = Ret this.
Proof.
  intros Hslot Hnone. unfold unwatchMappingKey. rewrite Hslot. simpl.
  rewrite forallb_filter_id; [by destruct this |].
  apply forallb_forall. intros e He%list_elem_of_In.
  by apply unwatchKeeps_chain, Hnone.
Qed.

(** X14: no call changes the allocation tables, so [constructSlot]
    returns after any sequence of calls what it returned before; a watch
    or an unwatch leaves the chain collaborator and the cache as they
    were, and [getStorage] leaves the registry as it was. *)
Theorem calls_keep_to_their_state this calls variable indices c :
  constructSlot (run this calls) variable indices
  = constructSlot this variable indices
  ∧ match c with
    | GetStorage _ _ _ => mappingKeys (call this c) = mappingKeys this
    | _ => web3 (call this c) = web3 this
           ∧ storageCache (call this c) = storageCache this
    end.
Proof.
  split.
  - destruct (run_sameTables this calls) as (Hv & Hd & Hs).
    by apply constructSlot_static.
  - destruct c as [v i | v i | a s b]; simpl.
    + unfold watchMappingKey.
      by destruct (constructSlot this v i) as [[[slot |] d] | e].
    + unfold unwatchMappingKey.
      by destruct (constructSlot this v i) as [[[slot |] d] | e].
    + unfold getStorage.
      destruct (_ !! pretty s); [done |].
      by destruct (getStorageAt _ _ _ _).
Qed.

End RegistryLaws.

Section RegistryLawsSamples.

#[local] Existing Instance Sample.conversion.

(** X9, at the sample contract: [watch("a", "b", 5)] registers the
    key of the prefix [a["b"]]. *)
Lemma watchMappingKey_registers_prefixes_witness :
  ∃ this',
    watchMappingKey (codec := Sample.collaborators) Sample.decoder
      (VarString "a") ([RawString "b"] ++ [RawNumber 5]) = Ret this'
    ∧ Sample.a_b ∈ mappingKeys this'.
Proof.
  apply (watchMappingKey_registers_prefixes (codec := Sample.collaborators)
           Sample.chain ∅ {[ 20 := mkStorageAllocation Sample.variables ]}
           Sample.variables [] (VarString "a") [RawString "b"] [RawNumber 5]
           Sample.a_b_5 (Some Sample.uint256) Sample.a_b
           (Some Sample.innerMapping)).
  - vm_compute. reflexivity.
  - vm_compute. reflexivity.
  - discriminate.
Defined.

(** X12, at the sample contract: [watch("xs", 4)] registers nothing,
    also when [a["b"]] is registered. *)
Lemma watchMappingKey_without_keys_witness :
  let this :=
    run (codec := Sample.collaborators) Sample.decoder
      [Watch (VarString "a") [RawString "b"]] in
  mappingKeys this = [Sample.a_b]
  ∧ watchMappingKey (codec := Sample.collaborators) this (VarString "xs")
      [RawNumber 4] = Ret this.
Proof.
  split; [vm_compute; reflexivity |].
  apply (watchMappingKey_without_keys (codec := Sample.collaborators) _ _ _
           (mkSlot None (Some (Sample.rootSlot 1)) (Some true) 4)
           (Some Sample.uint256)).
  - vm_compute. reflexivity.
  - intros s Hs. vm_compute in Hs.
    apply elem_of_cons in Hs as [-> | ->%list_elem_of_singleton]; reflexivity.
Defined.

(** X13, at the sample contract: with [a["b"]] registered,
    [unwatch("a", "c")] changes nothing. *)
Lemma unwatchMappingKey_not_watched_witness :
  let this :=
    run (codec := Sample.collaborators) Sample.decoder
      [Watch (VarString "a") [RawString "b"]] in
  mappingKeys this = [Sample.a_b]
  ∧ unwatchMappingKey (codec := Sample.collaborators) this (VarString "a")
      [RawString "c"] = Ret this.
Proof.
  split; [vm_compute; reflexivity |].
  apply (unwatchMappingKey_not_watched (codec := Sample.collaborators) _ _ _
           (mkSlot (Some (mkElementaryValue "t_string_storage_ptr"
                            (StringData "c")))
              (Some (Sample.rootSlot 0)) None 0)
           (Some Sample.innerMapping)).
  - vm_compute. reflexivity.
  - intros e He. vm_compute in He. apply list_elem_of_singleton in He as ->.
    vm_compute.
    intros [Heq | Heq%list_elem_of_singleton]%elem_of_cons; discriminate Heq.
Defined.

End RegistryLawsSamples.

(** ** The cache: further invariants and laws *)

Section CacheLaws.

Context {codec : Collaborators} {conversion : Conversion.Collaborator}.
Implicit Types (this : TruffleContractInstanceDecoder) (calls : list Call)
  (address : string) (slot block : Z) (word : list Byte.byte).

Lemma cacheExtends_refl this : cacheExtends this this.
Proof. by intros address slot block word. Qed.

Lemma cacheExtends_trans this this' this'' :
  cacheExtends this this' → cacheExtends this' this'' →
  cacheExtends this this''.
Proof. intros H1 H2 address slot block word Hw. by apply H2, H1. Qed.

(** One call of [getStorage], whatever the cache holds. *)
Lemma getStorage_result this address slot block :
  ∃ this',
    getStorage this address slot block
    = (default (Conversion.toBytes (storageAt (web3 this) address slot block)
                  EVM.WORD_SIZE)
         (cachedWord this address slot block),
       this')
    ∧ cachedWord this' address slot block
      = Some (default (Conversion.toBytes
                         (storageAt (web3 this) address slot block)
                         EVM.WORD_SIZE)
                (cachedWord this address slot block))
    ∧ cacheExtends this this'
    ∧ storageAt (web3 this') = storageAt (web3 this)
    ∧ mappingKeys this' = mappingKeys this
    ∧ sameTables this this'
    ∧ (∀ address' slot' block' word,
         cachedWord this' address' slot' block' = Some word →
         cachedWord this address' slot' block' = Some word
         ∨ (address', slot', block') = (address, slot, block)
           ∧ (address, slot, block) ∈ reads (web3 this'))
    ∧ ∃ new, reads (web3 this') = reads (web3 this) ++ new
             ∧ Forall (λ r, r = (address, slot, block)) new.
Proof.
  assert (sameTables this (getStorage this address slot block).2) as Htables.
  { unfold getStorage. destruct (_ !! pretty slot); [done |].
    by destruct (getStorageAt _ _ _ _). }
  destruct (cachedWord this address slot block) as [word |] eqn:E.
  - exists this. rewrite (getStorage_hit _ _ _ _ _ E). simpl.
    split; [done |]. split; [done |].
    split; [apply cacheExtends_refl |]. split; [done |]. split; [done |].
    split; [done |]. split; [intros; by left |].
    exists []. split; [by rewrite app_nil_r | apply Forall_nil_2].
  - destruct (getStorage_miss _ _ _ _ E)
      as (this' & Hget & Hreads & Hchain & Hkeys & Hnew & Hold).
    rewrite Hget in Htables.
    exists this'. simpl. split; [done |]. split; [done |]. split.
    { intros address' slot' block' word Hw. rewrite Hold; [done |].
      intros [= -> -> ->]. congruence. }
    split; [done |]. split; [done |]. split; [done |]. split.
    { intros address' slot' block' word Hw.
      destruct (decide ((address', slot', block') = (address, slot, block)))
        as [Heq | Hne].
      - right. split; [done |]. rewrite Hreads, elem_of_app. right.
        apply list_elem_of_here.
      - left. by rewrite <- Hold. }
    exists [(address, slot, block)]. split; [done |]. by apply Forall_singleton.
Qed.

Lemma call_cacheExtends this c : cacheExtends this (call this c).
Proof.
  destruct c as [v i | v i | a s b]; simpl.
  - unfold watchMappingKey.
    destruct (constructSlot this v i) as [[[slot |] d] | e]; simpl;
      by intros address sl block word.
  - unfold unwatchMappingKey.
    destruct (constructSlot this v i) as [[[slot |] d] | e]; simpl;
      by intros address sl block word.
  - destruct (getStorage_result this a s b) as (this' & -> & _ & Hext & _).
    exact Hext.
Qed.

Lemma getStorage_coherent this address slot block :
  coherent this → coherent (getStorage this address slot block).2.
Proof.
  intros Hcoh.
  destruct (getStorage_result this address slot block)
    as (this' & -> & Hnew & _ & Hchain & _ & _ & Hfrom & _).
  simpl. intros a s b w Hw. rewrite Hchain.
  destruct (Hfrom _ _ _ _ Hw) as [Hold | [[= -> -> ->] _]]; [by apply Hcoh |].
  rewrite Hnew in Hw. injection Hw as <-.
  destruct (cachedWord this address slot block) as [w' |] eqn:E; simpl;
    [by apply Hcoh | done].
Qed.

Lemma call_coherent this c :
  coherent this ∧ readsCover this →
  (coherent (call this c) ∧ readsCover (call this c))
  ∧ storageAt (web3 (call this c)) = storageAt (web3 this).
Proof.
  intros [Hcoh Hcover]. destruct c as [v i | v i | a s b]; simpl.
  - unfold watchMappingKey.
    by destruct (constructSlot this v i) as [[[slot |] d] | e].
  - unfold unwatchMappingKey.
    by destruct (constructSlot this v i) as [[[slot |] d] | e].
  - split; [split; [by apply getStorage_coherent |] |].
    + destruct (getStorage_result this a s b)
        as (this' & -> & _ & _ & _ & _ & _ & Hfrom & new & Hreads & _).
      simpl. intros a' s' b' [w Hw].
      destruct (Hfrom _ _ _ _ Hw) as [Hold | [-> Hin]]; [| done].
      rewrite Hreads, elem_of_app. left. apply Hcover. by exists w.
    + by destruct (getStorage_result this a s b)
        as (this' & -> & _ & _ & Hchain & _).
Qed.

Lemma run_coherent this calls :
  coherent this ∧ readsCover this →
  (coherent (run this calls) ∧ readsCover (run this calls))
  ∧ storageAt (web3 (run this calls)) = storageAt (web3 this).
Proof.
  revert this. induction calls as [| c calls IH]; intros this Hinv; [done |].
  destruct (call_coherent this c Hinv) as [Hinv' Hchain].
  destruct (IH _ Hinv') as [Hinv'' Hchain'].
  split; [done |]. simpl. congruence.
Qed.

Lemma newDecoder_coherent chainFn declarations storage variables :
  coherent (newDecoder chainFn declarations storage variables)
  ∧ readsCover (newDecoder chainFn declarations storage variables).
Proof.
  split.
  - intros a s b w. unfold cachedWord, lookup3. simpl. by rewrite lookup_empty.
  - intros a s b [w Hw]. revert Hw. unfold cachedWord, lookup3. simpl.
    by rewrite lookup_empty.
Qed.

(** X15: entries of the cache are never evicted nor overwritten: a word
    cached for a triple is the word cached for it after any sequence of
    calls. *)
Theorem cache_entries_stay this calls address slot block word :
  cachedWord this address slot block = Some word →
  cachedWord (run this calls) address slot block = Some word.
Proof.
  revert this. induction calls as [| c calls IH]; intros this Hw; [done |].
  apply IH. by apply call_cacheExtends.
Qed.

(** X16: the cache is transparent: after any sequence of calls on a
    fresh instance, [getStorage] returns the word of the chain for the
    triple, as [toBytes] renders it, whether it reads the chain or the
    cache. *)
Theorem getStorage_returns_chain_word
    chainFn declarations storage variables calls address slot block :
  (getStorage
     (run (newDecoder chainFn declarations storage variables) calls)
     address slot block).1
  = Conversion.toBytes (chainFn address slot block) EVM.WORD_SIZE.
Proof.
  destruct (run_coherent _ calls
              (newDecoder_coherent chainFn declarations storage variables))
    as [[Hcoh _] Hchain].
  set (this := run _ calls) in *.
  destruct (getStorage_result this address slot block) as (this' & -> & _).
  simpl in *. rewrite Hchain.
  destruct (cachedWord this address slot block) as [w |] eqn:E; simpl; [| done].
  rewrite (Hcoh _ _ _ _ E). by rewrite Hchain.
Qed.

(** X17: after any sequence of calls on a fresh instance, the triples
    that the cache holds are the triples that were read from the
    chain. *)
Theorem cached_triples_are_the_reads
    chainFn declarations storage variables calls address slot block :
  let this := run (newDecoder chainFn declarations storage variables) calls in
  is_Some (cachedWord this address slot block)
  ↔ (address, slot, block) ∈ reads (web3 this).
Proof.
  intros this. split.
  - by destruct (run_coherent _ calls
                   (newDecoder_coherent chainFn declarations storage variables))
      as [[_ Hcover] _]; apply Hcover.
  - by destruct (run_cacheInvariant _ calls
                   (newDecoder_cacheInvariant chainFn declarations storage
                      variables)) as (_ & Hread); apply Hread.
Qed.

(** X18: a second call of [getStorage] for the same triple returns the
    word of the first and leaves the instance as the first call left it:
    no chain read, no change of the cache. *)
Theorem getStorage_twice this address slot block :
  let first := getStorage this address slot block in
  getStorage first.2 address slot block = first.
Proof.
  destruct (getStorage_result this address slot block)
    as (this' & Hget & Hnew & _).
  simpl. rewrite Hget. simpl. by apply getStorage_hit.
Qed.

End CacheLaws.

Section CacheLawsSamples.

#[local] Existing Instance Sample.conversion.

(** X15, at the sample contract: a word read before further calls. *)
Lemma cache_entries_stay_witness :
  cachedWord
    (run (codec := Sample.collaborators)
       (run (codec := Sample.collaborators) Sample.decoder
          [GetStorage "0xabc" 0 7])
       [GetStorage "0xabc" 1 7; Watch (VarString "a") [RawString "b"];
        GetStorage "0xabc" 0 8])
    "0xabc" 0 7
  = Some (replicate 31 Byte.x00 ++ [Byte.x01]).
Proof.
  apply (cache_entries_stay (codec := Sample.collaborators)).
  vm_compute. reflexivity.
Defined.

End CacheLawsSamples.

(** ** Decoding variables *)

Section DecodingLaws.

Context {codec : Collaborators} {conversion : Conversion.Collaborator}
  `{decoding : DecodingCollaborators}.
Implicit Types (this : TruffleContractInstanceDecoder)
  (fields : ContractFields) (decoder : Generator Result)
  (address : string) (slot block : Z)
  (references : list StorageMemberAllocation).

Import InstanceDecoder.

Lemma cacheGrown_refl this : cacheGrown this this.
Proof. split; [apply cacheExtends_refl | done]. Qed.

Lemma cacheGrown_trans this this' this'' :
  cacheGrown this this' → cacheGrown this' this'' → cacheGrown this this''.
Proof.
  intros (He & Hk & (Hv & Hd & Hs) & Hc) (He' & Hk' & (Hv' & Hd' & Hs') & Hc').
  split; [by apply (cacheExtends_trans _ this') |].
  repeat split; congruence.
Qed.

Lemma getStorage_cacheGrown this address slot block :
  cacheGrown this (getStorage this address slot block).2.
Proof.
  destruct (getStorage_result this address slot block)
    as (this' & -> & _ & Hext & Hchain & Hkeys & Htables & _).
  split; [exact Hext |]. split; [exact Hkeys |]. split; [exact Htables |].
  exact Hchain.
Qed.

Lemma getStorage_readsCover this address slot block :
  readsCover this → readsCover (getStorage this address slot block).2.
Proof.
  intros Hcover.
  destruct (getStorage_result this address slot block)
    as (this' & -> & _ & _ & _ & _ & _ & Hfrom & new & Hreads & _).
  simpl. intros a' s' b' [w Hw].
  destruct (Hfrom _ _ _ _ Hw) as [Hold | [-> Hin]]; [| done].
  rewrite Hreads, elem_of_app. left. apply Hcover. by exists w.
Qed.

Lemma getStorage_readsOnly this0 this address slot block :
  readsOnly address block this0 this →
  readsOnly address block this0 (getStorage this address slot block).2.
Proof.
  intros (new & Hreads & Hall).
  destruct (getStorage_result this address slot block)
    as (this' & -> & _ & _ & _ & _ & _ & _ & new' & Hreads' & Hall').
  simpl. exists (new ++ new'). split; [by rewrite Hreads', Hreads, app_assoc |].
  apply Forall_app. split; [done |].
  eapply Forall_impl; [exact Hall' |]. intros r ->. by exists slot.
Qed.

(** What every [getStorage] keeps, the loop of [decodeVariable]
    keeps. *)
Lemma drive_keeps (P : TruffleContractInstanceDecoder → Prop) address block :
  (∀ this slot, P this → P (getStorage this address slot block).2) →
  ∀ decoder this, P this → P (drive this address block decoder).2.
Proof.
  intros Hstep decoder.
  induction decoder as [value | [slot | codeAddress] next IH];
    intros this HP; simpl; [done | | by apply IH].
  destruct (getStorage this address slot block) as [response this1] eqn:E.
  apply IH. specialize (Hstep this slot HP). by rewrite E in Hstep.
Qed.

Lemma drive_cacheGrown this address block decoder :
  cacheGrown this (drive this address block decoder).2.
Proof.
  apply (drive_keeps (cacheGrown this)); [| apply cacheGrown_refl].
  intros this1 slot Hgrown.
  apply (cacheGrown_trans _ this1); [done | apply getStorage_cacheGrown].
Qed.

(** Replay: a generator run once is answered from the cache of every
    later instance, with the same value and no change. *)
Lemma drive_replay address block decoder :
  ∀ this this2,
    cacheExtends (drive this address block decoder).2 this2 →
    drive this2 address block decoder
    = ((drive this address block decoder).1, this2).
Proof.
  induction decoder as [value | [slot | codeAddress] next IH];
    intros this this2; simpl; [done | | by apply IH].
  destruct (getStorage_result this address slot block)
    as (this1 & -> & Hcached & _).
  set (response := default _ _) in *. intros Hext.
  assert (cachedWord this2 address slot block = Some response) as Hhit.
  { apply Hext.
    by destruct (drive_cacheGrown this1 address block (next response))
      as (Hgrown & _); apply Hgrown. }
  rewrite (getStorage_hit _ _ _ _ _ Hhit). by apply IH.
Qed.

(** The loop answers as the chain does when the cache is coherent. *)
Lemma drive_directly address block decoder :
  ∀ this,
    coherent this →
    (drive this address block decoder).1
    = decodeDirectly (storageAt (web3 this)) address block decoder.
Proof.
  induction decoder as [value | [slot | codeAddress] next IH];
    intros this Hcoh; simpl; [done | | by apply IH].
  pose proof (getStorage_coherent this address slot block Hcoh) as Hcoh'.
  destruct (getStorage_result this address slot block)
    as (this1 & Hget & _ & _ & Hchain & _).
  rewrite Hget in Hcoh' |- *. simpl in Hcoh'. rewrite (IH _ _ Hcoh'), Hchain.
  destruct (cachedWord this address slot block) as [w |] eqn:E; simpl; [| done].
  by rewrite (Hcoh _ _ _ _ E).
Qed.

Lemma decodeVariable_cacheGrown fields this variable block :
  cacheGrown this (decodeVariable fields this variable block).2.
Proof. apply drive_cacheGrown. Qed.

Lemma decodeVariable_replay fields this this2 variable block :
  cacheGrown (decodeVariable fields this variable block).2 this2 →
  decodeVariable fields this2 variable block
  = ((decodeVariable fields this variable block).1, this2).
Proof.
  intros Hgrown.
  destruct (cacheGrown_trans _ _ _
              (decodeVariable_cacheGrown fields this variable block) Hgrown)
    as (_ & Hkeys & (_ & _ & Hstorage) & _).
  destruct Hgrown as (Hext & _).
  unfold decodeVariable in *. rewrite Hkeys, Hstorage.
  by apply drive_replay.
Qed.

(** X19: decoding a variable a second time returns the value of the
    first time and leaves the instance as the first decoding left it:
    every word is answered from the cache. *)
Theorem decodeVariable_twice fields this variable block :
  let first := decodeVariable fields this variable block in
  decodeVariable fields first.2 variable block = first.
Proof.
  simpl. rewrite (decodeVariable_replay _ this) by apply cacheGrown_refl.
  by destruct (decodeVariable fields this variable block).
Qed.

(** X20: the cache does not show in what is decoded: after any
    sequence of calls on a fresh instance, [decodeVariable] returns what
    the generator returns when each storage request is answered by the
    word of the chain, as [toBytes] renders it, and each code request by
    [getCode]. *)
Theorem decodeVariable_as_the_chain_says fields
    chainFn declarations storage variables calls variable block :
  let this := run (newDecoder chainFn declarations storage variables) calls in
  (decodeVariable fields this variable block).1
  = decodeDirectly chainFn (contractAddress fields) block
      (codecDecodeVariable (definition variable) (pointer variable)
         (mkEvmInfo (mappingKeys this) (userDefinedTypes fields)
            (allocations_storage this) (contextsById fields)
            (context fields))).
Proof.
  intros this.
  destruct (run_coherent _ calls
              (newDecoder_coherent chainFn declarations storage variables))
    as [[Hcoh _] Hchain].
  subst this. unfold decodeVariable. rewrite drive_directly by done.
  by rewrite Hchain.
Qed.

(** X21: the storage reads that [decodeVariable] issues
    ([getStorageAt], which the log of the chain collaborator records) are
    all for the contract's own address at the block asked for; code
    requests go to [getCode] and are not storage reads.  The registry
    and the allocation tables are left as they were and every cache
    entry stays in place. *)
Theorem decodeVariable_reads_own_storage fields this variable block :
  let this' := (decodeVariable fields this variable block).2 in
  readsOnly (contractAddress fields) block this this'
  ∧ mappingKeys this' = mappingKeys this
  ∧ sameTables this this'
  ∧ cacheExtends this this'.
Proof.
  simpl. split.
  - apply (drive_keeps (readsOnly (contractAddress fields) block this)).
    + intros this1 slot. apply getStorage_readsOnly.
    + exists []. split; [by rewrite app_nil_r | apply Forall_nil_2].
  - by destruct (decodeVariable_cacheGrown fields this variable block)
      as (He & Hk & Ht & _).
Qed.

(** X22: [decodeVariable] keeps what holds of the cache and of the log
    of storage reads: no triple read twice, what was read is cached and
    what is cached was read, and every cached word is what [toBytes]
    makes of the word of the chain. *)
Theorem decodeVariable_keeps_cache_sound fields this variable block :
  cacheInvariant this → coherent this → readsCover this →
  let this' := (decodeVariable fields this variable block).2 in
  cacheInvariant this' ∧ coherent this' ∧ readsCover this'.
Proof.
  intros Hinv Hcoh Hcover. simpl. unfold decodeVariable. split; [| split].
  - apply (drive_keeps cacheInvariant); [| done].
    intros this1 slot. apply getStorage_cacheInvariant.
  - apply (drive_keeps coherent); [| done].
    intros this1 slot. apply getStorage_coherent.
  - apply (drive_keeps readsCover); [| done].
    intros this1 slot. apply getStorage_readsCover.
Qed.

(** X23: [variable] for a name or id that no variable has returns
    [undefined] and the instance as it was, once the block number is
    known; it does not raise, unlike [constructSlot]. *)
Theorem variable_unknown fields this nameOrId (block : BlockType) :
  findAllocation this nameOrId = None →
  variable fields this nameOrId block
  = (blockNumber ← blockNumberOf block; Ret (None, this))
  ∧ ∀ n, variable fields this nameOrId (BlockNumber n) = Ret (None, this).
Proof.
  intros Hfind. unfold variable. rewrite Hfind. split; [done |].
  intros n. reflexivity.
Qed.

(** *** [state] *)

Lemma decodeAll_keeps (P : TruffleContractInstanceDecoder → Prop) fields block :
  (∀ this variable, P this → P (decodeVariable fields this variable block).2) →
  ∀ references this decoded,
    P this → P (decodeAll fields this references block decoded).2.
Proof.
  intros Hstep references.
  induction references as [| a references IH]; intros this decoded HP; simpl;
    [done |].
  destruct (decodeVariable fields this a block) as [value this1] eqn:E.
  apply IH. specialize (Hstep this a HP). by rewrite E in Hstep.
Qed.

Lemma decodeAll_cacheGrown fields this references block decoded :
  cacheGrown this (decodeAll fields this references block decoded).2.
Proof.
  apply (decodeAll_keeps (cacheGrown this)); [| apply cacheGrown_refl].
  intros this1 a Hgrown.
  apply (cacheGrown_trans _ this1); [done | apply decodeVariable_cacheGrown].
Qed.

Lemma decodeAll_replay fields block references :
  ∀ this this2 decoded,
    cacheGrown (decodeAll fields this references block decoded).2 this2 →
    decodeAll fields this2 references block decoded
    = ((decodeAll fields this references block decoded).1, this2).
Proof.
  induction references as [| a references IH]; intros this this2 decoded;
    simpl; [done |].
  destruct (decodeVariable fields this a block) as [value this1] eqn:E.
  intros Hgrown.
  assert (cacheGrown this1 this2) as Hgrown1
    by (eapply cacheGrown_trans; [apply decodeAll_cacheGrown | exact Hgrown]).
  replace this1 with (decodeVariable fields this a block).2 in Hgrown1
    by (by rewrite E).
  rewrite (decodeVariable_replay _ _ _ _ _ Hgrown1), E. simpl.
  by apply IH.
Qed.

Lemma decodeAll_lookup fields block references name :
  ∀ this decoded,
    (name ∉ map (λ a, def_name (definition a)) references →
     (decodeAll fields this references block decoded).1 !! name
     = decoded !! name)
    ∧ (is_Some ((decodeAll fields this references block decoded).1 !! name)
       ↔ name ∈ map (λ a, def_name (definition a)) references
         ∨ is_Some (decoded !! name)).
Proof.
  induction references as [| a references IH]; intros this decoded; simpl.
  - split; [done |]. rewrite elem_of_nil. tauto.
  - destruct (decodeVariable fields this a block) as [value this1] eqn:E.
    destruct (IH this1 (<[def_name (definition a) := value]> decoded))
      as [Hother Hdom].
    split.
    + intros Hnot. rewrite Hother, lookup_insert_ne; [done | |].
      * intros Heq. apply Hnot. rewrite Heq. apply list_elem_of_here.
      * intros Hin. apply Hnot. by apply list_elem_of_further.
    + rewrite Hdom, elem_of_cons.
      destruct (decide (def_name (definition a) = name)) as [<- | Hne].
      * rewrite lookup_insert_eq. split; [by left; left | by right].
      * rewrite lookup_insert_ne by done.
        split; [intros [? | ?]; [left; by right | by right]
               | intros [[? | ?] | ?]; [congruence | by left | by right]].
Qed.

Lemma decodeAll_values fields block references :
  ∀ this decoded variable,
    NoDup (map (λ a, def_name (definition a)) references) →
    variable ∈ references →
    ∀ this2,
      cacheGrown (decodeAll fields this references block decoded).2 this2 →
      ∃ value,
        (decodeAll fields this references block decoded).1
          !! def_name (definition variable) = Some value
        ∧ decodeVariable fields this2 variable block = (value, this2).
Proof.
  induction references as [| a references IH];
    intros this decoded variable Hnodup Hin this2; simpl;
    [by apply elem_of_nil in Hin |].
  destruct (decodeVariable fields this a block) as [value this1] eqn:E.
  apply NoDup_cons in Hnodup as [Hfresh Hnodup].
  intros Hgrown. apply elem_of_cons in Hin as [-> | Hin].
  - exists value. split.
    + destruct (decodeAll_lookup fields block references
                  (def_name (definition a)) this1
                  (<[def_name (definition a) := value]> decoded)) as [Hother _].
      rewrite Hother by done. apply lookup_insert_eq.
    + assert (cacheGrown this1 this2) as Hgrown1
        by (eapply cacheGrown_trans; [apply decodeAll_cacheGrown | exact Hgrown]).
      replace this1 with (decodeVariable fields this a block).2 in Hgrown1
        by (by rewrite E).
      by rewrite (decodeVariable_replay _ _ _ _ _ Hgrown1), E.
  - by apply IH.
Qed.

(** X24: after [state] at a block, [variable] at the number of that
    block returns for a variable the value that [state] recorded under
    the variable's name, and leaves the instance as [state] left it (no
    chain read), provided no two state variables have the same name. *)
Theorem state_then_variable fields this (block : BlockType) blockNumber
    st this' nameOrId allocation :
  state fields this block = Ret (st, this') →
  blockNumberOf block = Ret blockNumber →
  NoDup (map (λ a, def_name (definition a)) (stateVariableReferences this)) →
  findAllocation this nameOrId = Some allocation →
  is_Some (variables st !! def_name (definition allocation))
  ∧ variable fields this' nameOrId (BlockNumber blockNumber)
    = Ret (variables st !! def_name (definition allocation), this').
Proof.
  unfold state. intros Hstate Hblock Hnodup Hfind.
  rewrite Hblock in Hstate. simpl in Hstate.
  destruct (getBalance _ _) as [balance |]; [| done]. simpl in Hstate.
  destruct (getTransactionCount _ _) as [nonce |]; [| done]. simpl in Hstate.
  destruct (decodeAll fields this (stateVariableReferences this) blockNumber ∅)
    as [decoded this1] eqn:E.
  injection Hstate as <- <-. simpl.
  assert (allocation ∈ stateVariableReferences this) as Hin.
  { apply find_some in Hfind as [Hin _]. by apply list_elem_of_In. }
  destruct (decodeAll_values fields blockNumber (stateVariableReferences this)
              this ∅ allocation Hnodup Hin this1) as (value & Hvalue & Hagain).
  { rewrite E. apply cacheGrown_refl. }
  rewrite E in Hvalue. simpl in Hvalue. rewrite Hvalue.
  split; [by exists value |].
  unfold variable. simpl.
  pose proof (decodeAll_cacheGrown fields this (stateVariableReferences this)
                blockNumber ∅) as (_ & _ & (Hvars & _) & _).
  rewrite E in Hvars. simpl in Hvars.
  unfold findAllocation in *. rewrite Hvars, Hfind, Hagain. done.
Qed.

(** X25: a second [state] at the same block number returns the state
    of the first and leaves the instance as the first left it: every
    storage word is answered from the cache. *)
Theorem state_twice fields this blockNumber st this' :
  state fields this (BlockNumber blockNumber) = Ret (st, this') →
  state fields this' (BlockNumber blockNumber) = Ret (st, this').
Proof.
  unfold state. simpl.
  destruct (getBalance _ _) as [balance |]; [| done]. simpl.
  destruct (getTransactionCount _ _) as [nonce |]; [| done]. simpl.
  destruct (decodeAll fields this (stateVariableReferences this) blockNumber ∅)
    as [decoded this1] eqn:E.
  intros [= <- <-].
  pose proof (decodeAll_cacheGrown fields this (stateVariableReferences this)
                blockNumber ∅) as (_ & _ & (Hvars & _) & _).
  rewrite E in Hvars. simpl in Hvars. rewrite Hvars.
  rewrite (decodeAll_replay _ _ _ this) by (rewrite E; apply cacheGrown_refl).
  by rewrite E.
Qed.

(** X26: the state that [state] returns has a value for exactly the
    names of the state variables; the storage it reads from the chain is
    the contract's own at the number of the block, and the registry and
    the allocation tables are left as they were. *)
Theorem state_covers_the_variables fields this (block : BlockType)
    blockNumber st this' :
  state fields this block = Ret (st, this') →
  blockNumberOf block = Ret blockNumber →
  (∀ name,
     is_Some (variables st !! name)
     ↔ name ∈ map (λ a, def_name (definition a)) (stateVariableReferences this))
  ∧ readsOnly (contractAddress fields) blockNumber this this'
  ∧ mappingKeys this' = mappingKeys this
  ∧ sameTables this this'.
Proof.
  unfold state. intros Hstate Hblock.
  rewrite Hblock in Hstate. simpl in Hstate.
  destruct (getBalance _ _) as [balance |]; [| done]. simpl in Hstate.
  destruct (getTransactionCount _ _) as [nonce |]; [| done]. simpl in Hstate.
  destruct (decodeAll fields this (stateVariableReferences this) blockNumber ∅)
    as [decoded this1] eqn:E.
  injection Hstate as <- <-. simpl. split; [| split].
  - intros name.
    destruct (decodeAll_lookup fields blockNumber (stateVariableReferences this)
                name this ∅) as [_ Hdom].
    rewrite E in Hdom. simpl in Hdom. rewrite Hdom, lookup_empty.
    split; [intros [? | [? ?]]; done | by left].
  - replace this1 with
      (decodeAll fields this (stateVariableReferences this) blockNumber ∅).2
      by (by rewrite E).
    apply (decodeAll_keeps (readsOnly (contractAddress fields) blockNumber this)).
    + intros this2 a (new & Hreads & Hall).
      destruct (drive_keeps
                  (readsOnly (contractAddress fields) blockNumber this2)
                  (contractAddress fields) blockNumber
                  (λ this3 slot, getStorage_readsOnly this2 this3 _ slot _)
                  (codecDecodeVariable (definition a) (pointer a)
                     (mkEvmInfo (mappingKeys this2) (userDefinedTypes fields)
                        (allocations_storage this2) (contextsById fields)
                        (context fields)))
                  this2) as (new' & Hreads' & Hall').
      { exists []. split; [by rewrite app_nil_r | apply Forall_nil_2]. }
      exists (new ++ new').
      split; [unfold decodeVariable; by rewrite Hreads', Hreads, app_assoc |].
      by apply Forall_app.
    + exists []. split; [by rewrite app_nil_r | apply Forall_nil_2].
  - pose proof (decodeAll_cacheGrown fields this (stateVariableReferences this)
                  blockNumber ∅) as (_ & Hkeys & Htables & _).
    by rewrite E in Hkeys, Htables.
Qed.

End DecodingLaws.

Section DecodingSamples.

#[local] Existing Instance Sample.collaborators.
#[local] Existing Instance Sample.conversion.
#[local] Existing Instance DecodingSample.types.
#[local] Existing Instance DecodingSample.collaborators.

(** The sample array decodes to its one element, by two chain reads. *)
Example sample_decodeVariable_xs :
  let first :=
    InstanceDecoder.decodeVariable DecodingSample.fields Sample.decoder
      DecodingSample.xs 7 in
  first.1 = [1]
  ∧ reads (web3 first.2) = [("0xabc", 1, 7); ("0xabc", 2000, 7)].
Proof. vm_compute. done. Qed.

Example sample_state :
  (λ r, variables r.1 !! "xs")
  <$> InstanceDecoder.state DecodingSample.fields Sample.decoder
        (BlockTag "latest")
  = Ret (Some [1]).
Proof. vm_compute. reflexivity. Qed.

(** X22, on the fresh sample instance. *)
Lemma decodeVariable_keeps_cache_sound_witness :
  let this' :=
    (InstanceDecoder.decodeVariable DecodingSample.fields Sample.decoder
       DecodingSample.xs 7).2 in
  cacheInvariant this' ∧ coherent this' ∧ readsCover this'.
Proof.
  apply (decodeVariable_keeps_cache_sound
           (decoding := DecodingSample.collaborators)).
  - apply newDecoder_cacheInvariant.
  - apply newDecoder_coherent.
  - apply newDecoder_coherent.
Defined.

(** X23, at the sample contract: no variable is called [nope]. *)
Lemma variable_unknown_witness :
  InstanceDecoder.variable DecodingSample.fields Sample.decoder
    (VarString "nope") (BlockTag "latest")
  = Ret (None, Sample.decoder)
  ∧ InstanceDecoder.variable DecodingSample.fields Sample.decoder
      (VarString "nope") (BlockTag "earliest")
    = Throw TypeError.
Proof.
  split.
  - apply (proj1 (variable_unknown (codec := Sample.collaborators)
                    (decoding := DecodingSample.collaborators)
                    DecodingSample.fields Sample.decoder (VarString "nope")
                    (BlockTag "latest") eq_refl)).
  - apply (proj1 (variable_unknown (codec := Sample.collaborators)
                    (decoding := DecodingSample.collaborators)
                    DecodingSample.fields Sample.decoder (VarString "nope")
                    (BlockTag "earliest") eq_refl)).
Defined.

(** X24, at the sample contract: [state("latest")], then
    [variable("xs", 7)]. *)
Lemma state_then_variable_witness :
  ∃ st this',
    InstanceDecoder.state DecodingSample.fields Sample.decoder
      (BlockTag "latest") = Ret (st, this')
    ∧ is_Some (variables st !! "xs")
    ∧ InstanceDecoder.variable DecodingSample.fields this' (VarString "xs")
        (BlockNumber 7)
      = Ret (variables st !! "xs", this').
Proof.
  eexists. eexists. split; [vm_compute; reflexivity |].
  apply (state_then_variable (codec := Sample.collaborators)
           (decoding := DecodingSample.collaborators)
           DecodingSample.fields Sample.decoder (BlockTag "latest") 7 _ _
           (VarString "xs") DecodingSample.xs).
  - vm_compute. reflexivity.
  - vm_compute. reflexivity.
  - apply (bool_decide_unpack _). vm_compute. exact I.
  - vm_compute. reflexivity.
Defined.

(** X25, at the sample contract. *)
Lemma state_twice_witness :
  ∃ st this',
    InstanceDecoder.state DecodingSample.fields Sample.decoder (BlockNumber 7)
    = Ret (st, this')
    ∧ InstanceDecoder.state DecodingSample.fields this' (BlockNumber 7)
      = Ret (st, this').
Proof.
  eexists. eexists. split; [vm_compute; reflexivity |].
  apply (state_twice (decoding := DecodingSample.collaborators)
           DecodingSample.fields Sample.decoder 7).
  vm_compute. reflexivity.
Defined.

(** X26, at the sample contract. *)
Lemma state_covers_the_variables_witness :
  ∃ st this',
    InstanceDecoder.state DecodingSample.fields Sample.decoder
      (BlockTag "latest") = Ret (st, this')
    ∧ (∀ name, is_Some (variables st !! name)
               ↔ name ∈ ["k"; "a"; "xs"; "small"])
    ∧ readsOnly "0xabc" 7 Sample.decoder this'
    ∧ mappingKeys this' = []
    ∧ sameTables Sample.decoder this'.
Proof.
  eexists. eexists. split; [vm_compute; reflexivity |].
  apply (state_covers_the_variables
           (decoding := DecodingSample.collaborators)
           DecodingSample.fields Sample.decoder (BlockTag "latest") 7).
  - vm_compute. reflexivity.
  - vm_compute. reflexivity.
Defined.

End DecodingSamples.
